(** * osi/src/hash_map.c: a chained hash map over an injected allocator

    A shallow embedding of [hash_map.c].  Pointers to caller-owned keys and
    data are opaque machine words; [size_t] counters are naturals reduced
    modulo the word size; the bucket array is a list indexed by position.
    Allocation outcomes and the calls made to caller-supplied hooks are
    threaded through an explicit world, so that failure paths and cleanup
    obligations can be stated and proved. *)

From Stdlib Require Import NArith Lia.
From stdpp Require Import base option list numbers.

Local Open Scope N_scope.

(** ** Machine-level data *)

(** [const void *] and [void *]: an address, [NULL] being address zero. *)
Definition ptr : Type := N.
Definition NULL : ptr := 0.

(** The address of a caller-supplied cleanup function ([key_free_fn],
    [data_free_fn]); an absent hook is [None]. *)
Definition fn_ptr : Type := N.

(** [size_t] on the LP64 targets the stack is built for: 64 bits. *)
Definition SIZE_BITS : N := 64.
Definition SIZE_MODULUS : N := 2 ^ SIZE_BITS.

(** [n++] and [n--] on a [size_t], wrap-around written out. *)
Definition size_incr (n : N) : N := (n + 1) mod SIZE_MODULUS.
Definition size_decr (n : N) : N := (n + (SIZE_MODULUS - 1)) mod SIZE_MODULUS.

(** [hash_map_entry_t].  The back-reference [hash_map] of an entry always
    designates the one map that created it (it is written once, in
    [hash_map_set]); the functions below therefore receive that map as an
    argument wherever the source follows the back-reference.  Records are
    never written after their creation, so a record is represented by its
    contents; [remove_first_is_found_node] below shows that removal by
    contents unlinks the very node the chain search returned. *)
Record hash_map_entry_t : Type := {
  key : ptr;
  data : ptr
}.

Global Instance hash_map_entry_eq_dec : EqDecision hash_map_entry_t.
Proof. solve_decision. Defined.

(** Modelled from the spec: the chained-list primitive [list_t] of
    [list.c], a sequence of elements in insertion order. *)
Definition list_t : Type := list hash_map_entry_t.

(** [hash_map_bucket_t]: a possibly-NULL pointer to the bucket's chain. *)
Record hash_map_bucket_t : Type := {
  b_list : option list_t
}.

(** [hash_map_t].  The [allocator] field is represented by the allocation
    plan of the world below. *)
Record hash_map_t : Type := {
  bucket : list hash_map_bucket_t;
  num_bucket : N;
  hash_size : N;
  hash_fn : ptr -> N;
  key_fn : option fn_ptr;
  data_fn : option fn_ptr;
  keys_are_equal : ptr -> ptr -> bool
}.

(** ** The world: allocator outcomes and observable calls *)

Inductive event : Type :=
  | EvCall (f : fn_ptr) (arg : ptr)        (* a cleanup hook was invoked *)
  | EvRelease (e : hash_map_entry_t)       (* an entry record was released *)
  | EvCallback (e : hash_map_entry_t).     (* the iteration callback was invoked *)

Global Instance event_eq_dec : EqDecision event.
Proof. solve_decision. Defined.

(** [alloc_plan] lists the outcomes of the coming allocation requests
    ([false]: the allocator returns NULL); once it is used up, requests
    succeed.  [trace] records the calls made so far, oldest first. *)
Record world : Type := {
  alloc_plan : list bool;
  trace : list event
}.

(** A computation either stops on a failed assertion or an undefined
    operation ([None]) or yields a value and a new world. *)
Definition M (A : Type) : Type := world -> option (A * world).

Definition ret {A} (a : A) : M A := fun w => Some (a, w).

Definition bind {A B} (c : M A) (k : A -> M B) : M B :=
  fun w => match c w with
           | Some (a, w') => k a w'
           | None => None
           end.

Definition abort {A} : M A := fun _ => None.

Declare Scope hm_scope.
Delimit Scope hm_scope with hm.
Notation "'do' x <- c ; k" := (bind c (fun x => k))
  (at level 10, x pattern, c at level 100, k at level 200) : hm_scope.
Notation "c ;; k" := (bind c (fun _ => k))
  (at level 100, k at level 200, right associativity) : hm_scope.
Local Open Scope hm_scope.

(** [assert(b)] *)
Definition assert_ (b : bool) : M unit := if b then ret tt else abort.

(** A read that is undefined when the option is [None]. *)
Definition defined {A} (o : option A) : M A :=
  match o with Some a => ret a | None => abort end.

Definition emit (ev : event) : M unit :=
  fun w => Some (tt, {| alloc_plan := alloc_plan w; trace := trace w ++ [ev] |}).

(** [allocator->alloc(size)]: [true] when memory was obtained. *)
Definition alloc : M bool :=
  fun w => match alloc_plan w with
           | [] => Some (true, w)
           | ok :: plan => Some (ok, {| alloc_plan := plan; trace := trace w |})
           end.

(** ** The chained-list primitive *)

Section list_primitive.
Variable free_cb : hash_map_entry_t -> M unit.

(** Modelled from the spec: [list_new_internal] of [list.c]; NULL when
    the list header cannot be allocated, an empty list otherwise. *)
Definition list_new_internal : M (option list_t) :=
  do ok <- alloc;
  ret (if ok then Some [] else None).

(** Modelled from the spec: [list_append] of [list.c]; allocates a node
    and links it at the tail, or reports failure and leaves the list. *)
Definition list_append (l : list_t) (e : hash_map_entry_t) : M (bool * list_t) :=
  do ok <- alloc;
  ret (if ok then (true, l ++ [e]) else (false, l)).

(** Modelled from the spec: [list_remove] of [list.c]; unlinks the first
    node holding the element and hands the element to the free
    callback; [false] when no node holds it. *)
Fixpoint list_remove (l : list_t) (e : hash_map_entry_t) : M (bool * list_t) :=
  match l with
  | [] => ret (false, [])
  | x :: rest =>
      if decide (x = e) then (free_cb x ;; ret (true, rest))
      else (do r <- list_remove rest e; ret (fst r, x :: snd r))
  end.

(** Modelled from the spec: [list_free] of [list.c]; hands every element
    to the free callback, head first, then releases the list. *)
Fixpoint list_free (l : list_t) : M unit :=
  match l with
  | [] => ret tt
  | x :: rest => free_cb x ;; list_free rest
  end.
End list_primitive.

(** ** hash_map.c *)

Definition default_key_equality (x y : ptr) : bool := x =? y.

(** The bucket array obtained from the zero-filling allocator: every list
    pointer starts NULL (and so does the counter of the map). *)
Definition zeroed_buckets (n : N) : list hash_map_bucket_t :=
  replicate (N.to_nat n) {| b_list := None |}.

Definition hash_map_new_internal (num_bucket : N) (hash_fn : ptr -> N)
    (key_fn data_fn : option fn_ptr)
    (equality_fn : option (ptr -> ptr -> bool)) : M (option hash_map_t) :=
  assert_ (0 <? num_bucket) ;;
  do ok_map <- alloc;
  if negb ok_map then ret None else
  do ok_bucket <- alloc;
  if negb ok_bucket then ret None else
  ret (Some {| bucket := zeroed_buckets num_bucket;
               num_bucket := num_bucket;
               hash_size := 0;
               hash_fn := hash_fn;
               key_fn := key_fn;
               data_fn := data_fn;
               keys_are_equal := match equality_fn with
                                 | Some f => f
                                 | None => default_key_equality
                                 end |}).

Definition hash_map_new := hash_map_new_internal.

Definition hash_map_is_empty (m : hash_map_t) : bool := hash_size m =? 0.
Definition hash_map_size (m : hash_map_t) : N := hash_size m.
Definition hash_map_num_buckets (m : hash_map_t) : N := num_bucket m.

(** [hash_map->hash_fn(key) % hash_map->num_bucket]; undefined for a zero
    bucket count. *)
Definition bucket_index (m : hash_map_t) (k : ptr) : option nat :=
  if num_bucket m =? 0 then None
  else Some (N.to_nat (hash_fn m k mod num_bucket m)).

(** [hash_map->bucket[i].list]; undefined outside the array. *)
Definition bucket_list (m : hash_map_t) (i : nat) : option (option list_t) :=
  b_list <$> bucket m !! i.

(** [hash_map->bucket[i].list = l] *)
Definition set_bucket_list (m : hash_map_t) (i : nat) (l : option list_t)
    : hash_map_t :=
  {| bucket := <[i := {| b_list := l |}]> (bucket m);
     num_bucket := num_bucket m;
     hash_size := hash_size m;
     hash_fn := hash_fn m;
     key_fn := key_fn m;
     data_fn := data_fn m;
     keys_are_equal := keys_are_equal m |}.

Definition set_hash_size (m : hash_map_t) (n : N) : hash_map_t :=
  {| bucket := bucket m;
     num_bucket := num_bucket m;
     hash_size := n;
     hash_fn := hash_fn m;
     key_fn := key_fn m;
     data_fn := data_fn m;
     keys_are_equal := keys_are_equal m |}.

(** The loop of [find_bucket_entry_]: the first entry of the chain whose
    key the map's equality predicate accepts. *)
Fixpoint find_in_chain (m : hash_map_t) (l : list_t) (k : ptr)
    : option hash_map_entry_t :=
  match l with
  | [] => None
  | e :: rest =>
      if keys_are_equal m (key e) k then Some e else find_in_chain m rest k
  end.

Definition find_bucket_entry_ (m : hash_map_t) (hash_bucket_list : option list_t)
    (k : ptr) : option hash_map_entry_t :=
  match hash_bucket_list with
  | None => None
  | Some l => find_in_chain m l k
  end.

Definition bucket_free_ (m : hash_map_t) (e : hash_map_entry_t) : M unit :=
  match key_fn m with Some f => emit (EvCall f (key e)) | None => ret tt end ;;
  match data_fn m with Some f => emit (EvCall f (data e)) | None => ret tt end ;;
  emit (EvRelease e).

(** [p != NULL] for a possibly-NULL entry pointer. *)
Definition non_null {A} (p : option A) : bool :=
  match p with Some _ => true | None => false end.

(** The lookups read the map only; [None] is an undefined array access. *)
Definition hash_map_has_key (m : hash_map_t) (k : ptr) : option bool :=
  hash_key ← bucket_index m k;
  hash_bucket_list ← bucket_list m hash_key;
  Some (non_null (find_bucket_entry_ m hash_bucket_list k)).

Definition hash_map_get (m : hash_map_t) (k : ptr) : option ptr :=
  hash_key ← bucket_index m k;
  hash_bucket_list ← bucket_list m hash_key;
  Some (match find_bucket_entry_ m hash_bucket_list k with
        | Some hash_map_entry => data hash_map_entry
        | None => NULL
        end).

Definition hash_map_set (m : hash_map_t) (k : ptr) (d : ptr)
    : M (bool * hash_map_t) :=
  assert_ (negb (d =? NULL)) ;;
  do hash_key <- defined (bucket_index m k);
  do l0 <- defined (bucket_list m hash_key);
  do created <- match l0 with
                | None => list_new_internal
                | Some l => ret (Some l)
                end;
  match created with
  | None => ret (false, m)
  | Some hash_bucket_list =>
      do r <- match find_bucket_entry_ m (Some hash_bucket_list) k with
              | Some hash_map_entry =>
                  do rc <- list_remove (bucket_free_ m) hash_bucket_list hash_map_entry;
                  assert_ (fst rc) ;;
                  ret (snd rc, hash_size m)
              | None => ret (hash_bucket_list, size_incr (hash_size m))
              end;
      do ok <- alloc;
      if negb ok then
        ret (false, set_hash_size (set_bucket_list m hash_key (Some (fst r))) (snd r))
      else
        do ap <- list_append (fst r) {| key := k; data := d |};
        ret (fst ap,
             set_hash_size (set_bucket_list m hash_key (Some (snd ap))) (snd r))
  end.

Definition hash_map_erase (m : hash_map_t) (k : ptr) : M (bool * hash_map_t) :=
  do hash_key <- defined (bucket_index m k);
  do hash_bucket_list <- defined (bucket_list m hash_key);
  match find_bucket_entry_ m hash_bucket_list k with
  | None => ret (false, m)
  | Some hash_map_entry =>
      (* hash_size--, then list_remove on the (non-NULL) chain *)
      do l <- defined hash_bucket_list;
      do rc <- list_remove (bucket_free_ m) l hash_map_entry;
      ret (fst rc,
           set_bucket_list (set_hash_size m (size_decr (hash_size m)))
                           hash_key (Some (snd rc)))
  end.

(** The loop of [hash_map_clear] over the bucket indices still to visit. *)
Fixpoint clear_buckets (m : hash_map_t) (indices : list nat) : M hash_map_t :=
  match indices with
  | [] => ret m
  | i :: rest =>
      do l <- defined (bucket_list m i);
      match l with
      | None => clear_buckets m rest
      | Some chain =>
          list_free (bucket_free_ m) chain ;;
          clear_buckets (set_bucket_list m i None) rest
      end
  end.

Definition hash_map_clear (m : hash_map_t) : M hash_map_t :=
  clear_buckets m (seq 0 (N.to_nat (num_bucket m))).


(** The iteration callback reads the entry and may update the state its
    [context] argument points to; it answers whether to go on. *)
Section foreach.
Context {C : Type}.
Variable callback : hash_map_entry_t -> C -> bool * C.

(** The inner loop; the flag tells whether the callback asked to stop. *)
Fixpoint foreach_chain (l : list_t) (context : C) : M (bool * C) :=
  match l with
  | [] => ret (true, context)
  | hash_map_entry :: rest =>
      emit (EvCallback hash_map_entry) ;;
      let r := callback hash_map_entry context in
      if fst r then foreach_chain rest (snd r) else ret (false, snd r)
  end.

Fixpoint foreach_buckets (m : hash_map_t) (indices : list nat) (context : C)
    : M C :=
  match indices with
  | [] => ret context
  | i :: rest =>
      do l <- defined (bucket_list m i);
      match l with
      | None => foreach_buckets m rest context
      | Some chain =>
          do r <- foreach_chain chain context;
          if fst r then foreach_buckets m rest (snd r) else ret (snd r)
      end
  end.

Definition hash_map_foreach (m : hash_map_t) (context : C) : M C :=
  foreach_buckets m (seq 0 (N.to_nat (num_bucket m))) context.
End foreach.

(** * Properties *)

(** ** Representation invariants and derived notions *)

(** What [hash_map_new_internal] establishes and no operation changes: a
    non-zero bucket count, one array slot per bucket, and a counter that
    fits its type. *)
Definition hash_map_wf (m : hash_map_t) : Prop :=
  num_bucket m ≠ 0 ∧
  length (bucket m) = N.to_nat (num_bucket m) ∧
  hash_size m < SIZE_MODULUS.

(** The entries of a bucket, none when it has no chain. *)
Definition chain_of (b : hash_map_bucket_t) : list_t := default [] (b_list b).

(** All entries, bucket-index ascending, chain order inside a bucket. *)
Definition all_entries (m : hash_map_t) : list hash_map_entry_t :=
  concat (chain_of <$> bucket m).

Definition entry_count (m : hash_map_t) : nat := length (all_entries m).

(** The number of entries of a chain that the predicate equates with [k]. *)
Fixpoint count_matches (m : hash_map_t) (l : list_t) (k : ptr) : nat :=
  match l with
  | [] => O
  | e :: rest =>
      ((if keys_are_equal m (key e) k then 1 else 0) + count_matches m rest k)%nat
  end.

(** Key uniqueness (data model): in one chain at most one entry satisfies
    the equality predicate against any given key. *)
Definition keys_unique (m : hash_map_t) : Prop :=
  ∀ i l k, bucket_list m i = Some (Some l) → (count_matches m l k ≤ 1)%nat.

(** No stored data reference is NULL. *)
Definition data_nonnull (m : hash_map_t) : Prop :=
  ∀ e, e ∈ all_entries m → data e ≠ NULL.


(** The calls [bucket_free_] makes for one entry. *)
Definition cleanup_events (m : hash_map_t) (e : hash_map_entry_t) : list event :=
  match key_fn m with Some f => [EvCall f (key e)] | None => [] end ++
  match data_fn m with Some f => [EvCall f (data e)] | None => [] end ++
  [EvRelease e].

(** The world after further calls were recorded. *)
Definition logged (evs : list event) (w : world) : world :=
  {| alloc_plan := alloc_plan w; trace := trace w ++ evs |}.

(** A chain without the first node holding [e]. *)
Fixpoint remove_first (e : hash_map_entry_t) (l : list_t) : list_t :=
  match l with
  | [] => []
  | x :: rest => if decide (x = e) then rest else x :: remove_first e rest
  end.

(** The search both lookups perform: bucket computation, then chain scan. *)
Definition lookup_entry (m : hash_map_t) (k : ptr)
    : option (option hash_map_entry_t) :=
  hash_key ← bucket_index m k;
  hash_bucket_list ← bucket_list m hash_key;
  Some (find_bucket_entry_ m hash_bucket_list k).

(** The map after [hash_map_set] left [chain] in bucket [i] and [n] in the
    counter. *)
Definition installed (m : hash_map_t) (i : nat) (chain : list_t) (n : N)
    : hash_map_t :=
  set_hash_size (set_bucket_list m i (Some chain)) n.

(** The next allocation outcome and the world it leaves. *)
Definition pop_alloc (w : world) : bool * world :=
  match alloc_plan w with
  | [] => (true, w)
  | ok :: plan => (ok, {| alloc_plan := plan; trace := trace w |})
  end.

(** The end of [hash_map_set]: the entry record is allocated and appended
    to [chain], the chain and the counter [n] being what the search left. *)
Definition set_tail (m : hash_map_t) (k d : ptr) (i : nat) (chain : list_t)
    (n : N) : M (bool * hash_map_t) :=
  do ok <- alloc;
  if negb ok then ret (false, installed m i chain n)
  else
    do ap <- list_append chain {| key := k; data := d |};
    ret (fst ap, installed m i (snd ap) n).

(** The allocation requests [hash_map_set] makes, and sees granted, before
    it asks for the entry record: the chain header when the bucket has no
    chain yet. *)
Definition allocs_before_entry (m : hash_map_t) (k : ptr) : list bool :=
  match bucket_index m k ≫= bucket_list m with
  | Some None => [true]
  | _ => []
  end.

(** The map with every bucket's chain pointer reset to NULL and all other
    fields, the counter included, as they are. *)
Definition with_empty_buckets (m : hash_map_t) : hash_map_t :=
  {| bucket := zeroed_buckets (num_bucket m);
     num_bucket := num_bucket m;
     hash_size := hash_size m;
     hash_fn := hash_fn m;
     key_fn := key_fn m;
     data_fn := data_fn m;
     keys_are_equal := keys_are_equal m |}.

(** The counter equals the number of stored entries. *)
Definition counter_matches (m : hash_map_t) : Prop :=
  hash_size m = N.of_nat (entry_count m).


(** ** Iteration, as a walk over the flat sequence of entries *)

Section visit.
Context {C : Type}.
Variable callback : hash_map_entry_t -> C -> bool * C.

(** Walking a flat sequence of entries with the callback: whether the
    walk reached the end, the context it ends with, and the entries the
    callback was invoked on. *)
Fixpoint visit_done (l : list hash_map_entry_t) (c : C) : bool :=
  match l with
  | [] => true
  | e :: rest =>
      if fst (callback e c) then visit_done rest (snd (callback e c)) else false
  end.

Fixpoint visit_ctx (l : list hash_map_entry_t) (c : C) : C :=
  match l with
  | [] => c
  | e :: rest =>
      if fst (callback e c) then visit_ctx rest (snd (callback e c))
      else snd (callback e c)
  end.

Fixpoint visit_seq (l : list hash_map_entry_t) (c : C)
    : list hash_map_entry_t :=
  match l with
  | [] => []
  | e :: rest =>
      if fst (callback e c) then e :: visit_seq rest (snd (callback e c))
      else [e]
  end.

End visit.

(** The chains the bucket loop meets on a list of indices. *)
Definition chains_at (m : hash_map_t) (indices : list nat)
    : list hash_map_entry_t :=
  concat ((λ i, from_option chain_of [] (bucket m !! i)) <$> indices).

(** ** Sequences of operations *)

Inductive op : Type :=
  | OpSet (k d : ptr)
  | OpErase (k : ptr)
  | OpClear.

Definition run_op (o : op) (m : hash_map_t) : M hash_map_t :=
  match o with
  | OpSet k d => do r <- hash_map_set m k d; ret (snd r)
  | OpErase k => do r <- hash_map_erase m k; ret (snd r)
  | OpClear => hash_map_clear m
  end.

Fixpoint run_ops (ops : list op) (m : hash_map_t) : M hash_map_t :=
  match ops with
  | [] => ret m
  | o :: rest => do m' <- run_op o m; run_ops rest m'
  end.

(** The fields fixed at construction, and the size of the bucket array. *)
Definition same_config (m m' : hash_map_t) : Prop :=
  num_bucket m' = num_bucket m ∧ hash_fn m' = hash_fn m ∧
  key_fn m' = key_fn m ∧ data_fn m' = data_fn m ∧
  keys_are_equal m' = keys_are_equal m ∧
  length (bucket m') = length (bucket m).

(** A later operation that leaves the entry stored under [k] alone: an
    insertion or a removal whose key the predicate does not equate with
    the stored key. *)
Definition spares (m : hash_map_t) (k : ptr) (o : op) : Prop :=
  match o with
  | OpSet k' _ | OpErase k' => keys_are_equal m k k' = false
  | OpClear => False
  end.

(** The search for [k] in its bucket finds the entry [e]. *)
Definition stored_as (m : hash_map_t) (k : ptr) (e : hash_map_entry_t) : Prop :=
  lookup_entry m k = Some (Some e).

(** ** Further notions *)


(** The operation respects the contract of [hash_map_set]: the data it
    passes is not NULL. *)
Definition passes_data (o : op) : Prop :=
  match o with
  | OpSet _ d => d ≠ NULL
  | OpErase _ | OpClear => True
  end.

(** The operation is not an insertion under a key that the predicate
    equates with [k]. *)
Definition adds_no_match (m : hash_map_t) (k : ptr) (o : op) : Prop :=
  match o with
  | OpSet k' _ => keys_are_equal m k' k = false
  | OpErase _ | OpClear => True
  end.

(** The insertions of a list of key/data pairs, in order. *)
Definition insertions (kds : list (ptr * ptr)) : list op :=
  (λ kd, OpSet (fst kd) (snd kd)) <$> kds.

(** ** A sample map *)

(** Two buckets, the identity as hash function, both cleanup hooks
    configured, pointer equality on keys: keys 1 and 3 chained in bucket 1. *)
Definition sample_map : hash_map_t :=
  {| bucket := [ {| b_list := None |};
                 {| b_list := Some [ {| key := 1; data := 11 |};
                                     {| key := 3; data := 33 |} ] |} ];
     num_bucket := 2;
     hash_size := 2;
     hash_fn := λ k, k;
     key_fn := Some 100;
     data_fn := Some 200;
     keys_are_equal := default_key_equality |}.

Definition quiet_world : world := {| alloc_plan := []; trace := [] |}.

(** ** The world and the list primitive *)

Lemma logged_nil w : logged [] w = w.
Proof. destruct w. unfold logged. simpl. by rewrite app_nil_r. Qed.

Lemma logged_logged evs1 evs2 w :
  logged evs2 (logged evs1 w) = logged (evs1 ++ evs2) w.
Proof. unfold logged. simpl. by rewrite app_assoc. Qed.

Lemma bucket_free_run m e w :
  bucket_free_ m e w = Some (tt, logged (cleanup_events m e) w).
Proof.
  unfold bucket_free_, cleanup_events, logged, bind, emit, ret.
  destruct w as [plan tr]. simpl.
  destruct (key_fn m), (data_fn m); simpl;
    repeat rewrite <- app_assoc; reflexivity.
Qed.

Lemma list_remove_found m l e w :
  e ∈ l →
  list_remove (bucket_free_ m) l e w
  = Some ((true, remove_first e l), logged (cleanup_events m e) w).
Proof.
  induction l as [|x rest IH]; intros Hin.
  - by apply elem_of_nil in Hin.
  - simpl. destruct (decide (x = e)) as [->|Hne].
    + unfold bind. rewrite bucket_free_run. reflexivity.
    + apply elem_of_cons in Hin as [Heq|Hin]; [congruence|].
      unfold bind. rewrite (IH Hin). reflexivity.
Qed.

Lemma list_remove_missing m l e w :
  e ∉ l → list_remove (bucket_free_ m) l e w = Some ((false, l), w).
Proof.
  induction l as [|x rest IH]; intros Hnin; [reflexivity|].
  simpl. apply not_elem_of_cons in Hnin as [Hne Hnin].
  destruct (decide (x = e)); [congruence|].
  unfold bind. rewrite (IH Hnin). reflexivity.
Qed.

Lemma list_free_run m l w :
  list_free (bucket_free_ m) l w
  = Some (tt, logged (concat (cleanup_events m <$> l)) w).
Proof.
  revert w. induction l as [|x rest IH]; intros w; simpl.
  - by rewrite logged_nil.
  - unfold bind. rewrite bucket_free_run, IH, logged_logged. reflexivity.
Qed.

Lemma length_remove_first e l :
  e ∈ l → S (length (remove_first e l)) = length l.
Proof.
  induction l as [|x rest IH]; intros Hin.
  - by apply elem_of_nil in Hin.
  - simpl. destruct (decide (x = e)); [reflexivity|].
    apply elem_of_cons in Hin as [?|Hin]; [congruence|].
    simpl. by rewrite IH.
Qed.

(** ** Chain search *)

Lemma find_in_chain_Some m l k e :
  find_in_chain m l k = Some e → e ∈ l ∧ keys_are_equal m (key e) k = true.
Proof.
  induction l as [|x rest IH]; simpl; [done|].
  destruct (keys_are_equal m (key x) k) eqn:Hx.
  - intros [= ->]. split; [apply elem_of_cons; by left | done].
  - intros H. destruct (IH H) as [Hin He]. split; [|done].
    apply elem_of_cons. by right.
Qed.

Lemma find_in_chain_None m l k :
  find_in_chain m l k = None ↔ count_matches m l k = O.
Proof.
  induction l as [|x rest IH]; simpl; [done|].
  destruct (keys_are_equal m (key x) k); simpl; [split; discriminate | done].
Qed.

Lemma find_in_chain_config m m' l k :
  keys_are_equal m' = keys_are_equal m →
  find_in_chain m' l k = find_in_chain m l k.
Proof. intros Heq. induction l as [|x rest IH]; simpl; [done|]. by rewrite Heq, IH. Qed.



Lemma count_matches_remove_first m l k e :
  e ∈ l →
  count_matches m l k
  = ((if keys_are_equal m (key e) k then 1 else 0)
     + count_matches m (remove_first e l) k)%nat.
Proof.
  induction l as [|x rest IH]; intros Hin.
  - by apply elem_of_nil in Hin.
  - simpl. destruct (decide (x = e)) as [->|Hne]; [done|].
    apply elem_of_cons in Hin as [?|Hin]; [congruence|].
    simpl. rewrite (IH Hin). lia.
Qed.

Lemma find_in_chain_app_l m l1 l2 k e :
  find_in_chain m l1 k = Some e → find_in_chain m (l1 ++ l2) k = Some e.
Proof.
  induction l1 as [|x rest IH]; simpl; [done|].
  destruct (keys_are_equal m (key x) k); [done | apply IH].
Qed.

Lemma find_in_chain_app_r m l1 l2 k :
  find_in_chain m l1 k = None →
  find_in_chain m (l1 ++ l2) k = find_in_chain m l2 k.
Proof.
  induction l1 as [|x rest IH]; simpl; [done|].
  destruct (keys_are_equal m (key x) k); [done | apply IH].
Qed.

(** Removing another entry than the one a search finds does not change
    what the search finds. *)
Lemma find_in_chain_remove_other m l k e e' :
  find_in_chain m l k = Some e → e' ≠ e →
  find_in_chain m (remove_first e' l) k = Some e.
Proof.
  induction l as [|x rest IH]; simpl; [done|].
  intros Hfind Hne. destruct (decide (x = e')) as [->|Hx].
  - destruct (keys_are_equal m (key e') k); [congruence | done].
  - simpl. destruct (keys_are_equal m (key x) k); [done | by apply IH].
Qed.

(** The node [list_remove] unlinks for the entry a search returned is the
    node the search stopped at: no node before it matches the key. *)
Lemma remove_first_is_found_node m l k e :
  find_in_chain m l k = Some e →
  ∃ l1 l2, l = l1 ++ e :: l2 ∧ find_in_chain m l1 k = None ∧
           remove_first e l = l1 ++ l2.
Proof.
  induction l as [|x rest IH]; simpl; [done|].
  destruct (keys_are_equal m (key x) k) eqn:Hx.
  - intros [= ->]. exists [], rest. simpl.
    by destruct (decide (e = e)).
  - intros Hfind. destruct (IH Hfind) as (l1 & l2 & -> & Hnone & Hrem).
    exists (x :: l1), l2. simpl. rewrite Hx.
    destruct (decide (x = e)) as [->|_].
    + apply find_in_chain_Some in Hfind as [_ He]. congruence.
    + by rewrite Hrem.
Qed.

(** Under key uniqueness, removing the entry a search finds leaves no
    match behind. *)
Lemma find_in_chain_remove_found m l k e :
  find_in_chain m l k = Some e → (count_matches m l k ≤ 1)%nat →
  find_in_chain m (remove_first e l) k = None.
Proof.
  intros Hfind Hle. apply find_in_chain_Some in Hfind as [Hin He].
  apply find_in_chain_None.
  rewrite (count_matches_remove_first m l k e Hin), He in Hle. lia.
Qed.

(** ** Bucket array access *)

Lemma bucket_index_defined m k :
  hash_map_wf m →
  ∃ i, bucket_index m k = Some i ∧ (i < length (bucket m))%nat.
Proof.
  intros (Hnz & Hlen & _). unfold bucket_index.
  destruct (N.eqb_spec (num_bucket m) 0) as [|_]; [done|].
  eexists; split; [reflexivity|].
  rewrite Hlen. pose proof (N.mod_lt (hash_fn m k) (num_bucket m) Hnz). lia.
Qed.

Lemma bucket_list_defined m i :
  (i < length (bucket m))%nat → ∃ l, bucket_list m i = Some l.
Proof.
  intros Hi. unfold bucket_list.
  destruct (lookup_lt_is_Some_2 (bucket m) i Hi) as [b ->]. by eexists.
Qed.

Lemma bucket_list_in_range m i l :
  bucket_list m i = Some l → (i < length (bucket m))%nat.
Proof.
  unfold bucket_list. destruct (bucket m !! i) eqn:Hb; [|done].
  intros _. by eapply lookup_lt_Some.
Qed.

Lemma bucket_list_set_eq m i l :
  (i < length (bucket m))%nat → bucket_list (set_bucket_list m i l) i = Some l.
Proof.
  intros Hi. unfold bucket_list, set_bucket_list. simpl.
  by rewrite list_lookup_insert_eq.
Qed.

Lemma bucket_list_set_ne m i j l :
  i ≠ j → bucket_list (set_bucket_list m i l) j = bucket_list m j.
Proof.
  intros Hne. unfold bucket_list, set_bucket_list. simpl.
  by rewrite list_lookup_insert_ne.
Qed.

Lemma chain_in_all_entries m i l e :
  bucket_list m i = Some (Some l) → e ∈ l → e ∈ all_entries m.
Proof.
  unfold bucket_list, all_entries. intros Hb Hin.
  destruct (bucket m !! i) as [b|] eqn:Hi; [|done].
  simpl in Hb. injection Hb as Hb.
  apply list_elem_of_In, in_concat. exists l. split; [|by apply list_elem_of_In].
  apply list_elem_of_In, list_elem_of_fmap. exists b. split.
  - unfold chain_of. by rewrite Hb.
  - by eapply list_elem_of_lookup_2.
Qed.

(** The entries of a map whose bucket [i] received a new chain pointer. *)
Lemma all_entries_set_bucket m i l :
  (i < length (bucket m))%nat →
  all_entries (set_bucket_list m i l)
  = concat (chain_of <$> take i (bucket m)) ++ default [] l
    ++ concat (chain_of <$> drop (S i) (bucket m)).
Proof.
  intros Hi. unfold all_entries, set_bucket_list. simpl.
  rewrite insert_take_drop by done.
  rewrite fmap_app, concat_app. simpl. reflexivity.
Qed.

Lemma all_entries_split m i l :
  bucket_list m i = Some l →
  all_entries m
  = concat (chain_of <$> take i (bucket m)) ++ default [] l
    ++ concat (chain_of <$> drop (S i) (bucket m)).
Proof.
  unfold bucket_list, all_entries. intros Hb.
  destruct (bucket m !! i) as [b|] eqn:Hi; [|done].
  simpl in Hb. injection Hb as <-.
  rewrite <- (take_drop_middle (bucket m) i b Hi) at 1.
  rewrite fmap_app, concat_app. simpl. reflexivity.
Qed.

(** ** Lookups *)

Lemma hash_map_has_key_lookup m k :
  hash_map_has_key m k = non_null <$> lookup_entry m k.
Proof.
  unfold hash_map_has_key, lookup_entry.
  destruct (bucket_index m k) as [i|]; simpl; [|done].
  by destruct (bucket_list m i).
Qed.

Lemma hash_map_get_lookup m k :
  hash_map_get m k = (λ r, from_option data NULL r) <$> lookup_entry m k.
Proof.
  unfold hash_map_get, lookup_entry.
  destruct (bucket_index m k) as [i|]; simpl; [|done].
  destruct (bucket_list m i) as [l|]; simpl; [|done].
  by destruct (find_bucket_entry_ m l k).
Qed.

Lemma lookup_entry_defined m k :
  hash_map_wf m → ∃ r, lookup_entry m k = Some r.
Proof.
  intros Hwf. destruct (bucket_index_defined m k Hwf) as (i & Hi & Hlt).
  destruct (bucket_list_defined m i Hlt) as [l Hl].
  unfold lookup_entry. rewrite Hi. simpl. rewrite Hl. simpl. by eexists.
Qed.

Lemma lookup_entry_in_map m k e :
  lookup_entry m k = Some (Some e) →
  e ∈ all_entries m ∧ keys_are_equal m (key e) k = true.
Proof.
  unfold lookup_entry.
  destruct (bucket_index m k) as [i|]; simpl; [|done].
  destruct (bucket_list m i) as [[l|]|] eqn:Hl; simpl; try done.
  intros [= Hfind]. apply find_in_chain_Some in Hfind as [Hin He].
  split; [by eapply chain_in_all_entries | done].
Qed.

(** Presence of a key, unfolded to the bucket and the chain search. *)
Lemma has_key_true_inv m k :
  hash_map_has_key m k = Some true →
  ∃ i l e, bucket_index m k = Some i ∧ bucket_list m i = Some (Some l) ∧
           find_in_chain m l k = Some e.
Proof.
  unfold hash_map_has_key.
  destruct (bucket_index m k) as [i|]; simpl; [|done].
  destruct (bucket_list m i) as [[l|]|] eqn:Hl; simpl; try done.
  destruct (find_in_chain m l k) as [e|] eqn:Hf; [|done].
  intros _. by exists i, l, e.
Qed.

Lemma has_key_false_inv m k :
  hash_map_has_key m k = Some false →
  ∃ i l, bucket_index m k = Some i ∧ bucket_list m i = Some l ∧
         find_bucket_entry_ m l k = None.
Proof.
  unfold hash_map_has_key.
  destruct (bucket_index m k) as [i|]; simpl; [|done].
  destruct (bucket_list m i) as [l|] eqn:Hl; simpl; [|done].
  intros [= H]. exists i, l. split; [done|]. split; [done|].
  by destruct (find_bucket_entry_ m l k).
Qed.

Lemma lookup_entry_set_hash_size m n k :
  lookup_entry (set_hash_size m n) k = lookup_entry m k.
Proof.
  unfold lookup_entry.
  change (bucket_index (set_hash_size m n) k) with (bucket_index m k).
  destruct (bucket_index m k) as [i|]; simpl; [|done].
  change (bucket_list (set_hash_size m n) i) with (bucket_list m i).
  destruct (bucket_list m i) as [[c|]|]; simpl; try done.
  f_equal. by apply find_in_chain_config.
Qed.

Lemma set_bucket_list_set_hash_size m n i l :
  set_bucket_list (set_hash_size m n) i l = set_hash_size (set_bucket_list m i l) n.
Proof. reflexivity. Qed.

Lemma lookup_entry_set_bucket_eq m i l k :
  bucket_index m k = Some i → (i < length (bucket m))%nat →
  lookup_entry (set_bucket_list m i l) k = Some (find_bucket_entry_ m l k).
Proof.
  intros Hi Hlt. unfold lookup_entry.
  change (bucket_index (set_bucket_list m i l) k) with (bucket_index m k).
  rewrite Hi. simpl. rewrite bucket_list_set_eq by done. simpl.
  destruct l as [c|]; simpl; [|done].
  f_equal. by apply find_in_chain_config.
Qed.

Lemma lookup_entry_set_bucket_ne m i j l k :
  bucket_index m k = Some j → i ≠ j →
  lookup_entry (set_bucket_list m i l) k = lookup_entry m k.
Proof.
  intros Hj Hne. unfold lookup_entry.
  change (bucket_index (set_bucket_list m i l) k) with (bucket_index m k).
  rewrite Hj. simpl. rewrite bucket_list_set_ne by done.
  destruct (bucket_list m j) as [[c|]|]; simpl; try done.
  f_equal. by apply find_in_chain_config.
Qed.

(** ** The sample map *)

(** The sample map is what the code builds from two insertions. *)
Example sample_map_built :
  (do created <- hash_map_new 2 (λ k, k) (Some 100) (Some 200) None;
   match created with
   | None => ret None
   | Some m0 =>
       do r1 <- hash_map_set m0 1 11;
       do r2 <- hash_map_set (snd r1) 3 33;
       ret (Some (fst r1, fst r2, snd r2))
   end) quiet_world
  = Some (Some (true, true, sample_map), quiet_world).
Proof. reflexivity. Qed.

Lemma sample_map_wf : hash_map_wf sample_map.
Proof. split; [done | split; reflexivity]. Qed.


Lemma sample_map_keys_unique : keys_unique sample_map.
Proof.
  intros i l k. unfold bucket_list. simpl.
  destruct i as [|[|i]]; simpl; try done.
  intros [= <-]. cbn [count_matches key keys_are_equal sample_map].
  unfold default_key_equality.
  destruct (N.eqb_spec 1 k), (N.eqb_spec 3 k); lia.
Qed.

Lemma sample_map_data_nonnull : data_nonnull sample_map.
Proof.
  intros e He. unfold all_entries in He. simpl in He.
  apply elem_of_cons in He as [->|He]; [done|].
  apply elem_of_cons in He as [->|He]; [done|].
  by apply elem_of_nil in He.
Qed.

(** ** Counter arithmetic *)

Lemma SIZE_MODULUS_pos : 0 < SIZE_MODULUS.
Proof. reflexivity. Qed.

Lemma size_incr_small n : n + 1 < SIZE_MODULUS → size_incr n = n + 1.
Proof. intros H. unfold size_incr. by apply N.mod_small. Qed.

Lemma size_decr_pos n : 0 < n → n < SIZE_MODULUS → size_decr n + 1 = n.
Proof.
  intros Hpos Hlt. unfold size_decr. pose proof SIZE_MODULUS_pos as HM.
  replace (n + (SIZE_MODULUS - 1)) with ((n - 1) + 1 * SIZE_MODULUS) by lia.
  rewrite N.Div0.mod_add, N.mod_small by lia. lia.
Qed.

Lemma size_incr_lt n : size_incr n < SIZE_MODULUS.
Proof. unfold size_incr. apply N.mod_lt. pose proof SIZE_MODULUS_pos. lia. Qed.

Lemma size_decr_lt n : size_decr n < SIZE_MODULUS.
Proof. unfold size_decr. apply N.mod_lt. pose proof SIZE_MODULUS_pos. lia. Qed.

(** ** Removal *)

(** C6: erasing a key that is not present returns false and leaves the
    whole map as it was: same counter, same chains, and no call to any
    cleanup hook (the world, trace included, is unchanged). *)
Theorem erase_absent_key_unchanged m k w :
  hash_map_has_key m k = Some false →
  hash_map_erase m k w = Some ((false, m), w).
Proof.
  intros Habs. apply has_key_false_inv in Habs as (i & l & Hi & Hl & Hfind).
  unfold hash_map_erase, bind, defined, ret. by rewrite Hi, Hl, Hfind.
Qed.

Lemma erase_absent_key_unchanged_witness :
  hash_map_has_key sample_map 5 = Some false ∧
  hash_map_erase sample_map 5 quiet_world = Some ((false, sample_map), quiet_world).
Proof.
  split; [reflexivity|].
  apply (erase_absent_key_unchanged sample_map 5 quiet_world). reflexivity.
Defined.

(** C5: on a well-formed map whose chains hold at most one entry per key
    (the uniqueness invariant of the data model, kept by every operation
    when the predicate is an equivalence, see [reachable_invariant]),
    erasing a present key returns true, decrements the counter by one
    (as [size_t] arithmetic; exactly one less whenever the counter is not
    zero), makes [has_key] false for that key, and runs the cleanup
    protocol once, on the erased entry: the key hook on its key, the data
    hook on its data, each one time if configured, then the release of the
    entry record. *)
Theorem erase_present_key m k w :
  hash_map_wf m → keys_unique m →
  hash_map_has_key m k = Some true →
  ∃ e m',
    lookup_entry m k = Some (Some e) ∧
    hash_map_erase m k w = Some ((true, m'), logged (cleanup_events m e) w) ∧
    hash_map_size m' = size_decr (hash_map_size m) ∧
    (0 < hash_map_size m → hash_map_size m' + 1 = hash_map_size m) ∧
    hash_map_has_key m' k = Some false.
Proof.
  intros (Hnz & Hlen & Hsz) Huniq Hpres.
  apply has_key_true_inv in Hpres as (i & l & e & Hi & Hl & Hfind).
  pose proof (bucket_list_in_range _ _ _ Hl) as Hlt.
  destruct (find_in_chain_Some _ _ _ _ Hfind) as [Hin _].
  exists e. eexists. split; [|split; [|split; [|split]]].
  - unfold lookup_entry. rewrite Hi. simpl. rewrite Hl. simpl. by rewrite Hfind.
  - unfold hash_map_erase, bind, defined, ret. rewrite Hi, Hl.
    cbn [find_bucket_entry_]. rewrite Hfind.
    rewrite (list_remove_found m l e w Hin). simpl. reflexivity.
  - reflexivity.
  - intros Hpos. by apply size_decr_pos.
  - rewrite set_bucket_list_set_hash_size, hash_map_has_key_lookup,
      lookup_entry_set_hash_size, lookup_entry_set_bucket_eq by done.
    simpl. by rewrite (find_in_chain_remove_found m l k e Hfind (Huniq i l k Hl)).
Qed.

Lemma erase_present_key_witness :
  ∃ e m',
    lookup_entry sample_map 3 = Some (Some e) ∧
    hash_map_erase sample_map 3 quiet_world
    = Some ((true, m'), logged (cleanup_events sample_map e) quiet_world) ∧
    hash_map_size m' = size_decr (hash_map_size sample_map) ∧
    (0 < hash_map_size sample_map → hash_map_size m' + 1 = hash_map_size sample_map) ∧
    hash_map_has_key m' 3 = Some false.
Proof.
  apply (erase_present_key sample_map 3 quiet_world).
  - exact sample_map_wf.
  - exact sample_map_keys_unique.
  - reflexivity.
Defined.

(** ** Lookups agree *)

(** C9: when no stored data reference is NULL, [has_key] answers true
    exactly when [get] answers a non-NULL reference.  Both are the same
    bucket computation and chain search ([lookup_entry]) followed by a
    projection, and both are functions of the map that return no new map. *)
Theorem has_key_iff_get_non_null m k :
  hash_map_wf m → data_nonnull m →
  ∃ r, lookup_entry m k = Some r ∧
       hash_map_has_key m k = Some (non_null r) ∧
       hash_map_get m k = Some (from_option data NULL r) ∧
       (hash_map_has_key m k = Some true ↔
        ∃ d, hash_map_get m k = Some d ∧ d ≠ NULL).
Proof.
  intros Hwf Hnn. destruct (lookup_entry_defined m k Hwf) as [r Hr].
  exists r. rewrite hash_map_has_key_lookup, hash_map_get_lookup, Hr. simpl.
  split; [done|]. split; [done|]. split; [done|].
  destruct r as [e|]; simpl.
  - split; [|done]. intros _. exists (data e). split; [done|].
    apply Hnn. by apply (lookup_entry_in_map m k e).
  - split; [done|]. intros (d & [= <-] & Hd). done.
Qed.

Lemma has_key_iff_get_non_null_witness :
  ∃ r, lookup_entry sample_map 3 = Some r ∧
       hash_map_has_key sample_map 3 = Some (non_null r) ∧
       hash_map_get sample_map 3 = Some (from_option data NULL r) ∧
       (hash_map_has_key sample_map 3 = Some true ↔
        ∃ d, hash_map_get sample_map 3 = Some d ∧ d ≠ NULL).
Proof.
  apply (has_key_iff_get_non_null sample_map 3).
  - exact sample_map_wf.
  - exact sample_map_data_nonnull.
Defined.

(** ** Iteration *)

Section visit_facts.
Context {C : Type}.
Variable callback : hash_map_entry_t -> C -> bool * C.

Local Abbreviation visit_done := (visit_done callback).
Local Abbreviation visit_ctx := (visit_ctx callback).
Local Abbreviation visit_seq := (visit_seq callback).

Lemma visit_done_app l1 l2 c :
  visit_done (l1 ++ l2) c
  = if visit_done l1 c then visit_done l2 (visit_ctx l1 c) else false.
Proof.
  revert c. induction l1 as [|e rest IH]; intros c; simpl; [done|].
  destruct (fst (callback e c)); [apply IH | done].
Qed.

Lemma visit_ctx_app l1 l2 c :
  visit_ctx (l1 ++ l2) c
  = if visit_done l1 c then visit_ctx l2 (visit_ctx l1 c) else visit_ctx l1 c.
Proof.
  revert c. induction l1 as [|e rest IH]; intros c; simpl; [done|].
  destruct (fst (callback e c)); [apply IH | done].
Qed.

Lemma visit_seq_app l1 l2 c :
  visit_seq (l1 ++ l2) c
  = if visit_done l1 c then l1 ++ visit_seq l2 (visit_ctx l1 c)
    else visit_seq l1 c.
Proof.
  revert c. induction l1 as [|e rest IH]; intros c; simpl; [done|].
  destruct (fst (callback e c)); [|done].
  rewrite IH. by destruct (visit_done rest (snd (callback e c))).
Qed.

Lemma visit_seq_done l c : visit_done l c = true → visit_seq l c = l.
Proof.
  revert c. induction l as [|e rest IH]; intros c; simpl; [done|].
  destruct (fst (callback e c)); [|done]. intros H. by rewrite IH.
Qed.

Lemma visit_seq_prefix l c : visit_seq l c `prefix_of` l.
Proof.
  revert c. induction l as [|e rest IH]; intros c; simpl; [done|].
  destruct (fst (callback e c)).
  - by apply prefix_cons.
  - by exists rest.
Qed.

Lemma visit_done_always l c :
  (∀ e c', fst (callback e c') = true) → visit_done l c = true.
Proof.
  intros Hcb. revert c. induction l as [|e rest IH]; intros c; simpl; [done|].
  by rewrite Hcb.
Qed.

(** The walk stops with the first entry on which the callback answers
    false. *)
Lemma visit_seq_stop v e rest c :
  visit_done v c = true → fst (callback e (visit_ctx v c)) = false →
  visit_seq (v ++ e :: rest) c = v ++ [e] ∧
  visit_ctx (v ++ e :: rest) c = snd (callback e (visit_ctx v c)).
Proof.
  intros Hv He. rewrite visit_seq_app, visit_ctx_app, Hv. simpl.
  by rewrite He.
Qed.

Lemma foreach_chain_run l c w :
  foreach_chain callback l c w
  = Some ((visit_done l c, visit_ctx l c),
          logged (EvCallback <$> visit_seq l c) w).
Proof.
  revert c w. induction l as [|e rest IH]; intros c w; simpl.
  - unfold ret. by rewrite logged_nil.
  - unfold bind, emit. destruct (fst (callback e c)).
    + rewrite IH. unfold logged. simpl. by rewrite <- app_assoc.
    + reflexivity.
Qed.

Lemma foreach_buckets_run m indices c w :
  Forall (λ i, (i < length (bucket m))%nat) indices →
  foreach_buckets callback m indices c w
  = Some (visit_ctx (chains_at m indices) c,
          logged (EvCallback <$> visit_seq (chains_at m indices) c) w).
Proof.
  intros Hin. revert c w.
  induction Hin as [|i rest Hi _ IH]; intros c w.
  - simpl. unfold ret. by rewrite logged_nil.
  - destruct (lookup_lt_is_Some_2 (bucket m) i Hi) as [b Hb].
    assert (chains_at m (i :: rest) = chain_of b ++ chains_at m rest) as ->.
    { unfold chains_at. simpl. by rewrite Hb. }
    rewrite visit_ctx_app, visit_seq_app.
    simpl. unfold bind, defined, bucket_list. rewrite Hb. simpl.
    unfold chain_of. destruct (b_list b) as [chain|]; simpl.
    + unfold ret. rewrite foreach_chain_run. simpl.
      destruct (visit_done chain c) eqn:Hd; [|done].
      rewrite IH, logged_logged, (visit_seq_done _ _ Hd). by rewrite fmap_app.
    + apply IH.
Qed.
End visit_facts.

Lemma chains_at_all m :
  chains_at m (seq 0 (length (bucket m))) = all_entries m.
Proof.
  unfold chains_at, all_entries. f_equal.
  induction (bucket m) as [|b l IH] using rev_ind; [done|].
  rewrite length_app, Nat.add_1_r, seq_S, !fmap_app. simpl.
  rewrite lookup_app_r, Nat.sub_diag by done. simpl.
  f_equal. rewrite <- IH. apply list_fmap_ext.
  intros j i Hj. apply lookup_seq in Hj as [-> Hlt].
  by rewrite lookup_app_l.
Qed.

Lemma hash_map_foreach_run {C : Type}
    (callback : hash_map_entry_t → C → bool * C) m (context : C) w :
  hash_map_wf m →
  hash_map_foreach callback m context w
  = Some (visit_ctx callback (all_entries m) context,
          logged (EvCallback <$> visit_seq callback (all_entries m) context) w).
Proof.
  intros (_ & Hlen & _). unfold hash_map_foreach. rewrite <- Hlen.
  rewrite foreach_buckets_run, chains_at_all; [done|].
  apply Forall_forall. intros i Hi. apply in_seq in Hi. lia.
Qed.

(** C8: [foreach] invokes the callback on the live entries in bucket-index
    order and chain order.  With a callback that always answers true every
    live entry is visited exactly once; as soon as an invocation answers
    false that entry is the last one visited, whatever remains in its
    bucket or in later buckets; on a map without entries the callback is
    not invoked. *)
Theorem foreach_visits {C : Type} (callback : hash_map_entry_t → C → bool * C)
    m (context : C) w :
  hash_map_wf m →
  ∃ visited,
    hash_map_foreach callback m context w
    = Some (visit_ctx callback (all_entries m) context,
            logged (EvCallback <$> visited) w) ∧
    visited `prefix_of` all_entries m ∧
    ((∀ e c, fst (callback e c) = true) → visited = all_entries m) ∧
    (∀ v e rest,
       all_entries m = v ++ e :: rest →
       visit_done callback v context = true →
       fst (callback e (visit_ctx callback v context)) = false →
       visited = v ++ [e]) ∧
    (all_entries m = [] → visited = []).
Proof.
  intros Hwf.
  exists (visit_seq callback (all_entries m) context).
  split; [|split; [|split; [|split]]].
  - by apply hash_map_foreach_run.
  - apply visit_seq_prefix.
  - intros Hcb. apply visit_seq_done. by apply visit_done_always.
  - intros v e rest -> Hv He. by apply visit_seq_stop.
  - by intros ->.
Qed.

(** ** Insertion *)

Lemma alloc_run w : alloc w = Some (pop_alloc w).
Proof. unfold alloc, pop_alloc. by destruct (alloc_plan w). Qed.

Lemma pop_alloc_trace w : trace (snd (pop_alloc w)) = trace w.
Proof. unfold pop_alloc. by destruct (alloc_plan w). Qed.

Lemma set_tail_result m k d i (chain : list_t) n w :
  ∃ (ok : bool) w',
    set_tail m k d i chain n w
    = Some ((ok, installed m i
                   (if ok then chain ++ [{| key := k; data := d |}] else chain) n),
            w') ∧
    trace w' = trace w.
Proof.
  unfold set_tail, list_append, bind, ret. rewrite alloc_run.
  pose proof (pop_alloc_trace w) as Ht1.
  destruct (pop_alloc w) as [[] w1]; simpl in *.
  - rewrite alloc_run. pose proof (pop_alloc_trace w1) as Ht2.
    destruct (pop_alloc w1) as [[] w2]; simpl in *.
    + exists true, w2. split; [done | congruence].
    + exists false, w2. split; [done | congruence].
  - exists false, w1. by split.
Qed.

Lemma set_tail_entry_alloc_failure m k d i chain n w plan :
  alloc_plan w = false :: plan →
  set_tail m k d i chain n w
  = Some ((false, installed m i chain n),
          {| alloc_plan := plan; trace := trace w |}).
Proof.
  intros Hplan. unfold set_tail, bind, ret, alloc. by rewrite Hplan.
Qed.

Lemma hash_map_set_found m k d w i l e :
  d ≠ NULL → bucket_index m k = Some i → bucket_list m i = Some (Some l) →
  find_in_chain m l k = Some e →
  hash_map_set m k d w
  = set_tail m k d i (remove_first e l) (hash_size m)
      (logged (cleanup_events m e) w).
Proof.
  intros Hd Hi Hl Hfind. unfold hash_map_set, bind at 1, assert_.
  destruct (N.eqb_spec d NULL) as [|_]; [done|]. cbn [negb ret].
  unfold bind at 1, defined. rewrite Hi. cbn [ret].
  unfold bind at 1. rewrite Hl. cbn [ret].
  unfold bind at 1. cbn [ret find_bucket_entry_]. rewrite Hfind.
  unfold bind at 1. unfold bind at 1.
  destruct (find_in_chain_Some _ _ _ _ Hfind) as [Hin _].
  rewrite (list_remove_found m l e w Hin). cbn [fst snd].
  unfold bind at 1. cbn [ret]. reflexivity.
Qed.

Lemma hash_map_set_not_found m k d w i l :
  d ≠ NULL → bucket_index m k = Some i → bucket_list m i = Some (Some l) →
  find_in_chain m l k = None →
  hash_map_set m k d w = set_tail m k d i l (size_incr (hash_size m)) w.
Proof.
  intros Hd Hi Hl Hfind. unfold hash_map_set, bind at 1, assert_.
  destruct (N.eqb_spec d NULL) as [|_]; [done|]. cbn [negb ret].
  unfold bind at 1, defined. rewrite Hi. cbn [ret].
  unfold bind at 1. rewrite Hl. cbn [ret].
  unfold bind at 1. cbn [ret find_bucket_entry_]. rewrite Hfind.
  unfold bind at 1. cbn [ret fst snd]. reflexivity.
Qed.

Lemma hash_map_set_no_chain m k d w i :
  d ≠ NULL → bucket_index m k = Some i → bucket_list m i = Some None →
  hash_map_set m k d w
  = if fst (pop_alloc w)
    then set_tail m k d i [] (size_incr (hash_size m)) (snd (pop_alloc w))
    else Some ((false, m), snd (pop_alloc w)).
Proof.
  intros Hd Hi Hl. unfold hash_map_set, bind at 1, assert_.
  destruct (N.eqb_spec d NULL) as [|_]; [done|]. cbn [negb ret].
  unfold bind at 1, defined. rewrite Hi. cbn [ret].
  unfold bind at 1. rewrite Hl. cbn [ret].
  unfold bind at 1, list_new_internal, bind at 1. rewrite alloc_run.
  destruct (pop_alloc w) as [[] w1];
    cbn [ret fst snd find_bucket_entry_ find_in_chain].
  - unfold bind at 1. cbn [ret fst snd]. reflexivity.
  - reflexivity.
Qed.

Lemma hash_map_set_null_data m k w : hash_map_set m k NULL w = None.
Proof. reflexivity. Qed.

(** Every completed [hash_map_set], by the path it took: the chain could
    not be created; or the key was found, its entry destroyed and the
    counter kept; or the key was not found and the counter incremented.
    On the last two paths the new entry is in the chain exactly when the
    call reports success. *)
Lemma hash_map_set_cases m k d w r w' :
  hash_map_set m k d w = Some (r, w') →
  d ≠ NULL ∧
  ∃ i l0, bucket_index m k = Some i ∧ bucket_list m i = Some l0 ∧
    ((l0 = None ∧ r = (false, m) ∧ trace w' = trace w) ∨
     ∃ ok : bool, fst r = ok ∧
       match find_in_chain m (default [] l0) k with
       | Some e =>
           snd r = installed m i
                     (if ok then remove_first e (default [] l0)
                                 ++ [{| key := k; data := d |}]
                      else remove_first e (default [] l0))
                     (hash_size m) ∧
           trace w' = trace w ++ cleanup_events m e
       | None =>
           snd r = installed m i
                     (if ok then default [] l0 ++ [{| key := k; data := d |}]
                      else default [] l0)
                     (size_incr (hash_size m)) ∧
           trace w' = trace w
       end).
Proof.
  intros Hrun.
  assert (d ≠ NULL) as Hd.
  { intros ->. by rewrite hash_map_set_null_data in Hrun. }
  split; [done|].
  destruct (bucket_index m k) as [i|] eqn:Hi; cycle 1.
  { unfold hash_map_set, bind at 1, assert_ in Hrun.
    destruct (N.eqb_spec d NULL); [done|]. cbn [negb ret] in Hrun.
    unfold bind at 1, defined in Hrun. by rewrite Hi in Hrun. }
  destruct (bucket_list m i) as [l0|] eqn:Hl; cycle 1.
  { unfold hash_map_set, bind at 1, assert_ in Hrun.
    destruct (N.eqb_spec d NULL); [done|]. cbn [negb ret] in Hrun.
    unfold bind at 1, defined in Hrun. rewrite Hi in Hrun. cbn [ret] in Hrun.
    unfold bind at 1 in Hrun. by rewrite Hl in Hrun. }
  exists i, l0. split; [done|]. split; [done|].
  destruct l0 as [l|]; cbn [default from_option id].
  - right. destruct (find_in_chain m l k) as [e|] eqn:Hfind.
    + rewrite (hash_map_set_found m k d w i l e) in Hrun by done.
      destruct (set_tail_result m k d i (remove_first e l) (hash_size m)
                  (logged (cleanup_events m e) w)) as (ok & w1 & Hrun' & Ht).
      rewrite Hrun' in Hrun. injection Hrun as <- <-.
      exists ok. by repeat split.
    + rewrite (hash_map_set_not_found m k d w i l) in Hrun by done.
      destruct (set_tail_result m k d i l (size_incr (hash_size m)) w)
        as (ok & w1 & Hrun' & Ht).
      rewrite Hrun' in Hrun. injection Hrun as <- <-.
      exists ok. by repeat split.
  - rewrite (hash_map_set_no_chain m k d w i) in Hrun by done.
    pose proof (pop_alloc_trace w) as Ht0.
    destruct (pop_alloc w) as [[] w0]; cbn [fst snd] in *.
    + right.
      destruct (set_tail_result m k d i [] (size_incr (hash_size m)) w0)
        as (ok & w1 & Hrun' & Ht).
      rewrite Hrun' in Hrun. injection Hrun as <- <-.
      exists ok. cbn [find_in_chain]. repeat split; congruence.
    + left. injection Hrun as <- <-. by repeat split.
Qed.

(** [hash_map_set] always completes on a well-formed map and non-NULL
    data, whatever the allocator does. *)
Lemma hash_map_set_total m k d w :
  hash_map_wf m → d ≠ NULL → ∃ r w', hash_map_set m k d w = Some (r, w').
Proof.
  intros Hwf Hd. destruct (bucket_index_defined m k Hwf) as (i & Hi & Hlt).
  destruct (bucket_list_defined m i Hlt) as [[l|] Hl].
  - destruct (find_in_chain m l k) as [e|] eqn:Hfind.
    + rewrite (hash_map_set_found m k d w i l e) by done.
      destruct (set_tail_result m k d i (remove_first e l) (hash_size m)
                  (logged (cleanup_events m e) w)) as (ok & w1 & -> & _).
      by eauto.
    + rewrite (hash_map_set_not_found m k d w i l) by done.
      destruct (set_tail_result m k d i l (size_incr (hash_size m)) w)
        as (ok & w1 & -> & _).
      by eauto.
  - rewrite (hash_map_set_no_chain m k d w i) by done.
    destruct (pop_alloc w) as [[] w0]; cbn [fst snd]; [|by eauto].
    destruct (set_tail_result m k d i [] (size_incr (hash_size m)) w0)
      as (ok & w1 & -> & _).
    by eauto.
Qed.

Lemma lookup_entry_installed_eq m i chain n k :
  bucket_index m k = Some i → (i < length (bucket m))%nat →
  lookup_entry (installed m i chain n) k = Some (find_in_chain m chain k).
Proof.
  intros Hi Hlt. unfold installed.
  by rewrite lookup_entry_set_hash_size, (lookup_entry_set_bucket_eq m i _ k).
Qed.

Lemma lookup_entry_installed_ne m i j chain n k :
  bucket_index m k = Some j → i ≠ j →
  lookup_entry (installed m i chain n) k = lookup_entry m k.
Proof.
  intros Hj Hne. unfold installed.
  by rewrite lookup_entry_set_hash_size, (lookup_entry_set_bucket_ne m i j _ k).
Qed.

Lemma bucket_list_installed_eq m i chain n :
  (i < length (bucket m))%nat →
  bucket_list (installed m i chain n) i = Some (Some chain).
Proof. intros Hlt. by apply (bucket_list_set_eq m i (Some chain)). Qed.

Lemma bucket_list_installed_ne m i j chain n :
  i ≠ j → bucket_list (installed m i chain n) j = bucket_list m j.
Proof. intros Hne. by apply (bucket_list_set_ne m i j (Some chain)). Qed.

Lemma all_entries_installed m i chain n :
  (i < length (bucket m))%nat →
  all_entries (installed m i chain n)
  = concat (chain_of <$> take i (bucket m)) ++ chain
    ++ concat (chain_of <$> drop (S i) (bucket m)).
Proof. intros Hlt. by apply (all_entries_set_bucket m i (Some chain)). Qed.

(** C3: when the key is not present and the allocation of the entry record
    fails, [set] reports failure with the counter already incremented (as
    [size_t] arithmetic; exactly one more below the type's maximum) while
    the stored entries are what they were: the counter counts an entry
    that was never stored. *)
Theorem set_entry_alloc_failure_keeps_increment m k d w plan :
  d ≠ NULL →
  hash_map_has_key m k = Some false →
  alloc_plan w = allocs_before_entry m k ++ false :: plan →
  ∃ m',
    hash_map_set m k d w
    = Some ((false, m'), {| alloc_plan := plan; trace := trace w |}) ∧
    hash_map_size m' = size_incr (hash_map_size m) ∧
    (hash_map_size m + 1 < SIZE_MODULUS →
     hash_map_size m' = hash_map_size m + 1) ∧
    all_entries m' = all_entries m ∧
    hash_map_has_key m' k = Some false.
Proof.
  intros Hd Habs Hplan.
  apply has_key_false_inv in Habs as (i & l0 & Hi & Hl & Hfind).
  pose proof (bucket_list_in_range _ _ _ Hl) as Hlt.
  unfold allocs_before_entry in Hplan. rewrite Hi in Hplan. simpl in Hplan.
  rewrite Hl in Hplan.
  exists (installed m i (default [] l0) (size_incr (hash_size m))).
  split; [|split; [|split; [|split]]].
  - destruct l0 as [l|]; simpl in *.
    + rewrite (hash_map_set_not_found m k d w i l) by done.
      by apply set_tail_entry_alloc_failure.
    + rewrite (hash_map_set_no_chain m k d w i) by done.
      unfold pop_alloc. rewrite Hplan. cbn [fst snd].
      by rewrite (set_tail_entry_alloc_failure _ _ _ _ _ _ _ plan).
  - reflexivity.
  - intros Hsmall. by apply size_incr_small.
  - rewrite all_entries_installed by done. symmetry. by apply all_entries_split.
  - rewrite hash_map_has_key_lookup, lookup_entry_installed_eq by done.
    simpl. destruct l0 as [l|]; simpl in *; [by rewrite Hfind | done].
Qed.

Lemma set_entry_alloc_failure_keeps_increment_witness :
  ∃ m',
    hash_map_set sample_map 4 44 {| alloc_plan := [true; false]; trace := [] |}
    = Some ((false, m'), {| alloc_plan := []; trace := [] |}) ∧
    hash_map_size m' = size_incr (hash_map_size sample_map) ∧
    (hash_map_size sample_map + 1 < SIZE_MODULUS →
     hash_map_size m' = hash_map_size sample_map + 1) ∧
    all_entries m' = all_entries sample_map ∧
    hash_map_has_key m' 4 = Some false.
Proof.
  apply (set_entry_alloc_failure_keeps_increment sample_map 4 44
           {| alloc_plan := [true; false]; trace := [] |} []).
  - done.
  - reflexivity.
  - reflexivity.
Defined.

(** C4: on a map whose chains hold at most one entry per key (the
    uniqueness invariant of the data model) and whose predicate equates
    the key with itself, a successful [set] of a key that is already
    present replaces the stored data (a following [get] returns the new
    reference), leaves the counter unchanged, and runs the cleanup
    protocol once, on the replaced entry: the key hook on the old key and
    the data hook on the old data, each one time if configured, then the
    release of the old record. *)
Theorem set_present_key_replaces m k d w m' w' :
  keys_unique m → keys_are_equal m k k = true →
  hash_map_has_key m k = Some true →
  hash_map_set m k d w = Some ((true, m'), w') →
  ∃ old,
    lookup_entry m k = Some (Some old) ∧
    hash_map_get m' k = Some d ∧
    hash_map_size m' = hash_map_size m ∧
    trace w' = trace w ++ cleanup_events m old.
Proof.
  intros Huniq Hrefl Hpres Hrun.
  apply has_key_true_inv in Hpres as (i & l & e & Hi & Hl & Hfind).
  pose proof (bucket_list_in_range _ _ _ Hl) as Hlt.
  apply hash_map_set_cases in Hrun as (Hd & i' & l0 & Hi' & Hl' & Hcase).
  rewrite Hi in Hi'. injection Hi' as <-.
  rewrite Hl in Hl'. injection Hl' as <-.
  destruct Hcase as [(Hnone & _)|(ok & Hok & Hcase)]; [done|].
  simpl in Hok, Hcase. subst ok. rewrite Hfind in Hcase.
  destruct Hcase as [-> Htrace].
  exists e. split; [|split; [|split]].
  - unfold lookup_entry. rewrite Hi. simpl. rewrite Hl. simpl. by rewrite Hfind.
  - rewrite hash_map_get_lookup, lookup_entry_installed_eq by done.
    rewrite find_in_chain_app_r
      by (eapply find_in_chain_remove_found; [done | by eapply Huniq]).
    simpl. by rewrite Hrefl.
  - reflexivity.
  - done.
Qed.

Lemma set_present_key_replaces_witness :
  ∃ m' w' old,
    hash_map_set sample_map 1 12 quiet_world = Some ((true, m'), w') ∧
    lookup_entry sample_map 1 = Some (Some old) ∧
    hash_map_get m' 1 = Some 12 ∧
    hash_map_size m' = hash_map_size sample_map ∧
    trace w' = trace quiet_world ++ cleanup_events sample_map old.
Proof.
  eexists _, _.
  destruct (set_present_key_replaces sample_map 1 12 quiet_world _ _
              sample_map_keys_unique eq_refl eq_refl eq_refl)
    as (old & Hold & Hget & Hsize & Htrace).
  exists old. split; [reflexivity|]. by repeat split.
Defined.

(** ** Every completed removal *)

Lemma hash_map_erase_cases m k w r w' :
  hash_map_erase m k w = Some (r, w') →
  ∃ i l0, bucket_index m k = Some i ∧ bucket_list m i = Some l0 ∧
    match find_bucket_entry_ m l0 k with
    | None => r = (false, m) ∧ w' = w
    | Some e =>
        r = (true, installed m i (remove_first e (default [] l0))
                     (size_decr (hash_size m))) ∧
        w' = logged (cleanup_events m e) w
    end.
Proof.
  unfold hash_map_erase, bind, defined, ret, abort.
  destruct (bucket_index m k) as [i|] eqn:Hi; [|done].
  destruct (bucket_list m i) as [l0|] eqn:Hl; [|done].
  intros Hrun. exists i, l0. split; [done|]. split; [done|].
  destruct l0 as [l|]; simpl in *.
  - destruct (find_in_chain m l k) as [e|] eqn:Hfind.
    + destruct (find_in_chain_Some _ _ _ _ Hfind) as [Hin _].
      rewrite (list_remove_found m l e w Hin) in Hrun.
      by injection Hrun as <- <-.
    + by injection Hrun as <- <-.
  - by injection Hrun as <- <-.
Qed.

Lemma hash_map_erase_total m k w :
  hash_map_wf m → ∃ r w', hash_map_erase m k w = Some (r, w').
Proof.
  intros Hwf. destruct (bucket_index_defined m k Hwf) as (i & Hi & Hlt).
  destruct (bucket_list_defined m i Hlt) as [l0 Hl].
  unfold hash_map_erase, bind, defined, ret. rewrite Hi, Hl.
  destruct l0 as [l|]; simpl; [|by eauto].
  destruct (find_in_chain m l k) as [e|] eqn:Hfind; [|by eauto].
  destruct (find_in_chain_Some _ _ _ _ Hfind) as [Hin _].
  rewrite (list_remove_found m l e w Hin). by eauto.
Qed.

(** ** Clearing *)

Lemma cleanup_events_set_bucket m i l e :
  cleanup_events (set_bucket_list m i l) e = cleanup_events m e.
Proof. reflexivity. Qed.

Lemma chains_at_set_bucket_later m i l a n :
  (i < a)%nat →
  chains_at (set_bucket_list m i l) (seq a n) = chains_at m (seq a n).
Proof.
  intros Hlt. unfold chains_at. f_equal. apply list_fmap_ext.
  intros j x Hj. apply lookup_seq in Hj as [-> _].
  unfold set_bucket_list. simpl. rewrite list_lookup_insert_ne by lia. done.
Qed.

Lemma clear_buckets_run m a n w :
  (a + n)%nat = length (bucket m) →
  ∃ m',
    clear_buckets m (seq a n) w
    = Some (m', logged (concat (cleanup_events m <$> chains_at m (seq a n))) w) ∧
    bucket m' = take a (bucket m) ++ replicate n {| b_list := None |} ∧
    num_bucket m' = num_bucket m ∧ hash_size m' = hash_size m ∧
    hash_fn m' = hash_fn m ∧ key_fn m' = key_fn m ∧ data_fn m' = data_fn m ∧
    keys_are_equal m' = keys_are_equal m.
Proof.
  revert m a w. induction n as [|n IH]; intros m a w Hlen.
  - exists m. simpl. unfold ret, chains_at. simpl. rewrite logged_nil.
    rewrite Nat.add_0_r in Hlen. rewrite Hlen, firstn_all, app_nil_r. done.
  - assert (a < length (bucket m))%nat as Ha by lia.
    destruct (lookup_lt_is_Some_2 (bucket m) a Ha) as [b Hb].
    assert (chains_at m (seq a (S n)) = chain_of b ++ chains_at m (seq (S a) n))
      as Hsplit.
    { unfold chains_at. simpl. by rewrite Hb. }
    rewrite Hsplit. clear Hsplit.
    simpl. unfold bind, defined, bucket_list. rewrite Hb. simpl.
    destruct b as [[chain|]].
    + simpl. rewrite list_free_run.
      destruct (IH (set_bucket_list m a None) (S a)
                  (logged (concat (cleanup_events m <$> chain)) w))
        as (m' & Hrun & Hbk & Hrest).
      { unfold set_bucket_list. simpl. rewrite length_insert. lia. }
      exists m'. split; [|split; [|exact Hrest]].
      * rewrite Hrun, logged_logged, chains_at_set_bucket_later by lia.
        rewrite fmap_app, concat_app. reflexivity.
      * rewrite Hbk. unfold set_bucket_list. simpl.
        rewrite (take_S_r _ _ {| b_list := None |})
          by (by apply list_lookup_insert_eq).
        rewrite take_insert_ge by lia. by rewrite <- app_assoc.
    + destruct (IH m (S a) w) as (m' & Hrun & Hbk & Hrest); [lia|].
      exists m'. split; [|split; [|exact Hrest]].
      * simpl. rewrite Hrun. reflexivity.
      * rewrite Hbk, (take_S_r _ _ _ Hb). by rewrite <- app_assoc.
Qed.

(** What [hash_map_clear] does on any well-formed map: every entry goes
    through the cleanup protocol once, in iteration order, every bucket
    loses its chain, and the counter keeps its value. *)
Lemma hash_map_clear_run m w :
  hash_map_wf m →
  hash_map_clear m w
  = Some (with_empty_buckets m,
          logged (concat (cleanup_events m <$> all_entries m)) w).
Proof.
  intros (_ & Hlen & _). unfold hash_map_clear. rewrite <- Hlen.
  destruct (clear_buckets_run m 0 (length (bucket m)) w eq_refl)
    as (m' & Hrun & Hbk & Hnb & Hsz & Hhf & Hkf & Hdf & Heq).
  rewrite Hrun, chains_at_all. f_equal. f_equal.
  destruct m'. simpl in *. subst. unfold with_empty_buckets, zeroed_buckets.
  simpl. by rewrite Hlen.
Qed.

Lemma lookup_entry_with_empty_buckets m k :
  hash_map_wf m → lookup_entry (with_empty_buckets m) k = Some None.
Proof.
  intros Hwf. destruct (bucket_index_defined m k Hwf) as (i & Hi & Hlt).
  destruct Hwf as (_ & Hlen & _).
  unfold lookup_entry.
  change (bucket_index (with_empty_buckets m) k) with (bucket_index m k).
  rewrite Hi. simpl. unfold bucket_list, with_empty_buckets, zeroed_buckets.
  simpl. rewrite lookup_replicate_2 by lia. done.
Qed.

Lemma all_entries_with_empty_buckets m : all_entries (with_empty_buckets m) = [].
Proof.
  unfold all_entries, with_empty_buckets, zeroed_buckets. simpl.
  induction (N.to_nat (num_bucket m)) as [|n IH]; [done|]. simpl. exact IH.
Qed.

(** ** Sequences of operations *)

Lemma same_config_refl m : same_config m m.
Proof. by repeat split. Qed.

Lemma same_config_trans m1 m2 m3 :
  same_config m1 m2 → same_config m2 m3 → same_config m1 m3.
Proof.
  intros (?&?&?&?&?&?) (?&?&?&?&?&?). repeat split; congruence.
Qed.

Lemma same_config_installed m i chain n : same_config m (installed m i chain n).
Proof.
  repeat split. unfold installed, set_hash_size, set_bucket_list. simpl.
  apply length_insert.
Qed.

Lemma same_config_bucket_index m m' k :
  same_config m m' → bucket_index m' k = bucket_index m k.
Proof. intros (Hn & Hh & _). unfold bucket_index. by rewrite Hn, Hh. Qed.

Lemma same_config_find m m' l k :
  same_config m m' → find_in_chain m' l k = find_in_chain m l k.
Proof. intros (_&_&_&_&Heq&_). by apply find_in_chain_config. Qed.

Lemma same_config_lookup_entry m m' k :
  same_config m m' → bucket m' = bucket m →
  lookup_entry m' k = lookup_entry m k.
Proof.
  intros Hcfg Hbk. unfold lookup_entry.
  rewrite (same_config_bucket_index m m' k Hcfg).
  destruct (bucket_index m k) as [i|]; simpl; [|done].
  unfold bucket_list. rewrite Hbk.
  destruct (bucket m !! i) as [[[c|]]|]; simpl; try done.
  f_equal. by apply same_config_find.
Qed.

Lemma hash_map_set_same_config m k d w r w' :
  hash_map_set m k d w = Some (r, w') → same_config m (snd r).
Proof.
  intros Hrun.
  apply hash_map_set_cases in Hrun as (_ & i & l0 & _ & _ & Hcase).
  destruct Hcase as [(_ & -> & _)|(ok & _ & Hcase)]; [apply same_config_refl|].
  destruct (find_in_chain m (default [] l0) k);
    destruct Hcase as [-> _]; apply same_config_installed.
Qed.

Lemma hash_map_erase_same_config m k w r w' :
  hash_map_erase m k w = Some (r, w') → same_config m (snd r).
Proof.
  intros Hrun. apply hash_map_erase_cases in Hrun as (i & l0 & _ & _ & Hcase).
  destruct (find_bucket_entry_ m l0 k); destruct Hcase as [-> _].
  - apply same_config_installed.
  - apply same_config_refl.
Qed.

(** ** Round trip *)

Lemma stored_as_inv m k e :
  stored_as m k e →
  ∃ i l, bucket_index m k = Some i ∧ bucket_list m i = Some (Some l) ∧
         find_in_chain m l k = Some e.
Proof.
  unfold stored_as, lookup_entry.
  destruct (bucket_index m k) as [i|]; simpl; [|done].
  destruct (bucket_list m i) as [[l|]|] eqn:Hl; simpl; try done.
  intros [= Hfind]. by exists i, l.
Qed.

(** An update of the chain of the bucket of [k'] keeps the entry found for
    [k] as long as the chain search for [k] still finds it. *)
Lemma stored_as_installed m k k' e i' l0 chain n :
  stored_as m k e →
  bucket_index m k' = Some i' → bucket_list m i' = Some l0 →
  (find_in_chain m (default [] l0) k = Some e →
   find_in_chain m chain k = Some e) →
  stored_as (installed m i' chain n) k e.
Proof.
  intros Hst Hi' Hl0 Hkeep.
  destruct (stored_as_inv m k e Hst) as (i & l & Hi & Hl & Hfind).
  pose proof (bucket_list_in_range _ _ _ Hl0) as Hlt.
  unfold stored_as. destruct (decide (i' = i)) as [->|Hne].
  - rewrite lookup_entry_installed_eq by done. f_equal. apply Hkeep.
    rewrite Hl in Hl0. injection Hl0 as <-. done.
  - by rewrite (lookup_entry_installed_ne m i' i).
Qed.

Lemma run_op_keeps_stored m0 m k d o w m' w' :
  same_config m0 m → spares m0 k o →
  stored_as m k {| key := k; data := d |} →
  run_op o m w = Some (m', w') →
  same_config m0 m' ∧ stored_as m' k {| key := k; data := d |}.
Proof.
  intros Hcfg Hsp Hst Hrun. destruct o as [k' d'|k'|]; simpl in Hsp; [| |done].
  - simpl in Hrun. unfold bind, ret in Hrun.
    destruct (hash_map_set m k' d' w) as [[r w1]|] eqn:Hset; [|done].
    injection Hrun as <- <-.
    split; [eapply same_config_trans; [done | by eapply hash_map_set_same_config]|].
    apply hash_map_set_cases in Hset as (_ & i' & l0 & Hi' & Hl0 & Hcase).
    destruct Hcase as [(_ & -> & _)|(ok & _ & Hcase)]; [done|].
    destruct (find_in_chain m (default [] l0) k') as [e'|] eqn:Hfind';
      destruct Hcase as [-> _]; eapply stored_as_installed; try done.
    + intros Hfind.
      apply find_in_chain_Some in Hfind' as [_ He'].
      assert (e' ≠ {| key := k; data := d |}) as Hne.
      { intros ->. simpl in He'.
        destruct Hcfg as (_&_&_&_&Heq&_). rewrite Heq in He'. congruence. }
      pose proof (find_in_chain_remove_other _ _ _ _ _ Hfind Hne) as Hrem.
      destruct ok; [by apply find_in_chain_app_l | done].
    + intros Hfind. destruct ok; [by apply find_in_chain_app_l | done].
  - simpl in Hrun. unfold bind, ret in Hrun.
    destruct (hash_map_erase m k' w) as [[r w1]|] eqn:Her; [|done].
    injection Hrun as <- <-.
    split; [eapply same_config_trans; [done | by eapply hash_map_erase_same_config]|].
    apply hash_map_erase_cases in Her as (i' & l0 & Hi' & Hl0 & Hcase).
    destruct (find_bucket_entry_ m l0 k') as [e'|] eqn:Hfind';
      destruct Hcase as [-> _]; [|done].
    eapply stored_as_installed; try done.
    intros Hfind. destruct l0 as [l|]; [|done]. simpl in *.
    apply find_in_chain_Some in Hfind' as [_ He'].
    apply (find_in_chain_remove_other _ _ _ _ _ Hfind).
    intros ->. simpl in He'.
    destruct Hcfg as (_&_&_&_&Heq&_). rewrite Heq in He'. congruence.
Qed.

Lemma run_ops_keep_stored m0 k d ops :
  ∀ m w m' w',
    same_config m0 m → Forall (spares m0 k) ops →
    stored_as m k {| key := k; data := d |} →
    run_ops ops m w = Some (m', w') →
    stored_as m' k {| key := k; data := d |}.
Proof.
  induction ops as [|o rest IH]; intros m w m' w' Hcfg Hsp Hst Hrun.
  - simpl in Hrun. unfold ret in Hrun. by injection Hrun as <- <-.
  - apply Forall_cons_1 in Hsp as [Ho Hrest].
    simpl in Hrun. unfold bind in Hrun.
    destruct (run_op o m w) as [[m1 w1]|] eqn:Hop; [|done].
    destruct (run_op_keeps_stored m0 m k d o w m1 w1 Hcfg Ho Hst Hop)
      as [Hcfg1 Hst1].
    by eapply IH.
Qed.

(** A successful [set] stores its pair as the entry the search finds. *)
Lemma set_success_stored m k d w m' w' :
  keys_unique m → keys_are_equal m k k = true →
  hash_map_set m k d w = Some ((true, m'), w') →
  stored_as m' k {| key := k; data := d |}.
Proof.
  intros Huniq Hrefl Hrun.
  apply hash_map_set_cases in Hrun as (Hd & i & l0 & Hi & Hl & Hcase).
  pose proof (bucket_list_in_range _ _ _ Hl) as Hlt.
  destruct Hcase as [(_ & [=] & _)|(ok & Hok & Hcase)].
  simpl in Hok, Hcase. subst ok. unfold stored_as.
  destruct (find_in_chain m (default [] l0) k) as [e|] eqn:Hfind;
    destruct Hcase as [-> _]; rewrite lookup_entry_installed_eq by done; f_equal.
  - destruct l0 as [l|]; [|done]. simpl in *.
    rewrite find_in_chain_app_r
      by (eapply find_in_chain_remove_found; [done | by eapply Huniq]).
    simpl. by rewrite Hrefl.
  - rewrite find_in_chain_app_r by done. simpl. by rewrite Hrefl.
Qed.

(** C7: a pair inserted by a successful [set] is returned by [get], data
    reference unchanged, after any sequence of later insertions and
    removals on other keys (no removal or replacement of that key, no
    clear), whether or not those later calls succeed.  The map the pair is
    inserted into holds at most one entry per key in each chain, and the
    predicate equates the key with itself. *)
Theorem get_returns_what_set_stored m k d w m1 w1 ops m2 w2 :
  keys_unique m → keys_are_equal m k k = true →
  hash_map_set m k d w = Some ((true, m1), w1) →
  Forall (spares m k) ops →
  run_ops ops m1 w1 = Some (m2, w2) →
  hash_map_get m2 k = Some d.
Proof.
  intros Huniq Hrefl Hset Hops Hrun.
  pose proof (set_success_stored m k d w m1 w1 Huniq Hrefl Hset) as Hst.
  pose proof (hash_map_set_same_config _ _ _ _ _ _ Hset) as Hcfg.
  simpl in Hcfg.
  pose proof (run_ops_keep_stored m k d ops m1 w1 m2 w2 Hcfg Hops Hst Hrun)
    as Hst2.
  rewrite hash_map_get_lookup. unfold stored_as in Hst2. by rewrite Hst2.
Qed.

Lemma get_returns_what_set_stored_witness :
  ∃ m1 w1 m2 w2,
    hash_map_set sample_map 5 55 quiet_world = Some ((true, m1), w1) ∧
    run_ops [OpSet 1 12; OpErase 3; OpSet 7 77] m1 w1 = Some (m2, w2) ∧
    hash_map_get m2 5 = Some 55.
Proof.
  eexists _, _, _, _. split; [reflexivity|]. split; [reflexivity|].
  eapply (get_returns_what_set_stored sample_map 5 55 quiet_world _ _
            [OpSet 1 12; OpErase 3; OpSet 7 77]).
  - exact sample_map_keys_unique.
  - reflexivity.
  - reflexivity.
  - repeat constructor.
  - reflexivity.
Defined.

(** ** Well-formedness is kept *)

Lemma hash_map_wf_same_config m m' :
  hash_map_wf m → same_config m m' → hash_size m' < SIZE_MODULUS →
  hash_map_wf m'.
Proof.
  intros (Hnz & Hlen & _) (Hn & _ & _ & _ & _ & Hl) Hsz.
  split; [congruence|]. split; [congruence | done].
Qed.


Lemma hash_map_set_wf m k d w r w' :
  hash_map_wf m → hash_map_set m k d w = Some (r, w') → hash_map_wf (snd r).
Proof.
  intros Hwf Hrun.
  pose proof (hash_map_set_same_config _ _ _ _ _ _ Hrun) as Hcfg.
  apply (hash_map_wf_same_config m _ Hwf Hcfg).
  apply hash_map_set_cases in Hrun as (_ & i & l0 & _ & _ & Hcase).
  destruct Hcase as [(_ & -> & _)|(ok & _ & Hcase)]; [apply Hwf|].
  destruct (find_in_chain m (default [] l0) k); destruct Hcase as [-> _]; simpl.
  - apply Hwf.
  - apply size_incr_lt.
Qed.

Lemma hash_map_erase_wf m k w r w' :
  hash_map_wf m → hash_map_erase m k w = Some (r, w') → hash_map_wf (snd r).
Proof.
  intros Hwf Hrun.
  pose proof (hash_map_erase_same_config _ _ _ _ _ Hrun) as Hcfg.
  apply (hash_map_wf_same_config m _ Hwf Hcfg).
  apply hash_map_erase_cases in Hrun as (i & l0 & _ & _ & Hcase).
  destruct (find_bucket_entry_ m l0 k); destruct Hcase as [-> _]; simpl.
  - apply size_decr_lt.
  - apply Hwf.
Qed.

Lemma with_empty_buckets_wf m : hash_map_wf m → hash_map_wf (with_empty_buckets m).
Proof.
  intros (Hnz & Hlen & Hsz). split; [done|]. split; [|done].
  simpl. unfold zeroed_buckets. by rewrite length_replicate.
Qed.

(** ** Replacement moves the key to the tail of its chain *)

(** C10: a successful [set] of a key that is already present removes the
    old entry from the chain of its bucket and appends the new one at the
    tail, other buckets keeping their chains; a following [foreach] walks
    the entries in that order and therefore meets the key after every
    other entry of its bucket, wherever the old entry stood. *)
Theorem set_present_key_moves_to_tail m k d w m' w' :
  hash_map_wf m →
  hash_map_has_key m k = Some true →
  hash_map_set m k d w = Some ((true, m'), w') →
  ∃ i l old,
    bucket_index m k = Some i ∧ bucket_list m i = Some (Some l) ∧
    find_in_chain m l k = Some old ∧
    bucket_list m' i
    = Some (Some (remove_first old l ++ [{| key := k; data := d |}])) ∧
    (∀ j, j ≠ i → bucket_list m' j = bucket_list m j) ∧
    all_entries m'
    = concat (chain_of <$> take i (bucket m))
      ++ (remove_first old l ++ [{| key := k; data := d |}])
      ++ concat (chain_of <$> drop (S i) (bucket m)) ∧
    ∀ (C : Type) (callback : hash_map_entry_t → C → bool * C) (context : C) w0,
      ∃ visited,
        hash_map_foreach callback m' context w0
        = Some (visit_ctx callback (all_entries m') context,
                logged (EvCallback <$> visited) w0) ∧
        visited `prefix_of` all_entries m' ∧
        ((∀ e c, fst (callback e c) = true) → visited = all_entries m').
Proof.
  intros Hwf Hpres Hrun.
  pose proof (hash_map_set_wf m k d w _ _ Hwf Hrun) as Hwf'. simpl in Hwf'.
  apply has_key_true_inv in Hpres as (i & l & e & Hi & Hl & Hfind).
  pose proof (bucket_list_in_range _ _ _ Hl) as Hlt.
  apply hash_map_set_cases in Hrun as (Hd & i' & l0 & Hi' & Hl' & Hcase).
  rewrite Hi in Hi'. injection Hi' as <-.
  rewrite Hl in Hl'. injection Hl' as <-.
  destruct Hcase as [(Hnone & _)|(ok & Hok & Hcase)]; [done|].
  simpl in Hok, Hcase. subst ok. rewrite Hfind in Hcase.
  destruct Hcase as [-> Htrace].
  exists i, l, e. split; [done|]. split; [done|]. split; [done|].
  split; [by apply bucket_list_installed_eq|].
  split; [by intros j Hj; apply bucket_list_installed_ne|].
  split; [by apply all_entries_installed|].
  intros C callback context w0.
  exists (visit_seq callback
            (all_entries (installed m i
               (remove_first e l ++ [{| key := k; data := d |}]) (hash_size m)))
            context).
  split; [by apply hash_map_foreach_run|].
  split; [apply visit_seq_prefix|].
  intros Hcb. apply visit_seq_done. by apply visit_done_always.
Qed.

Lemma set_present_key_moves_to_tail_witness :
  ∃ m' w' i l old,
    hash_map_set sample_map 1 12 quiet_world = Some ((true, m'), w') ∧
    bucket_index sample_map 1 = Some i ∧
    bucket_list sample_map i = Some (Some l) ∧
    find_in_chain sample_map l 1 = Some old ∧
    bucket_list m' i
    = Some (Some (remove_first old l ++ [{| key := 1; data := 12 |}])).
Proof.
  eexists _, _.
  destruct (set_present_key_moves_to_tail sample_map 1 12 quiet_world _ _
              sample_map_wf eq_refl eq_refl)
    as (i & l & old & Hi & Hl & Hfind & Hb & _).
  exists i, l, old. split; [reflexivity|]. by repeat split.
Defined.

Lemma foreach_visits_witness :
  ∃ visited,
    hash_map_foreach (λ e (c : nat), (negb (key e =? 1), S c)) sample_map O
      quiet_world
    = Some (visit_ctx (λ e (c : nat), (negb (key e =? 1), S c))
              (all_entries sample_map) O,
            logged (EvCallback <$> visited) quiet_world) ∧
    visited `prefix_of` all_entries sample_map ∧
    ((∀ e (c : nat), fst (negb (key e =? 1), S c) = true) →
     visited = all_entries sample_map) ∧
    (∀ v e rest,
       all_entries sample_map = v ++ e :: rest →
       visit_done (λ e (c : nat), (negb (key e =? 1), S c)) v O = true →
       fst (negb (key e =? 1),
            S (visit_ctx (λ e (c : nat), (negb (key e =? 1), S c)) v O)) = false →
       visited = v ++ [e]) ∧
    (all_entries sample_map = [] → visited = []).
Proof.
  apply (foreach_visits (λ e (c : nat), (negb (key e =? 1), S c)) sample_map O
           quiet_world).
  exact sample_map_wf.
Defined.

(** ** The counter after [clear] *)

(** On every well-formed map [hash_map_clear] completes, removes every
    chain and makes every key absent, and leaves [hash_size] at the value
    it had. *)
Lemma hash_map_clear_keeps_counter m w :
  hash_map_wf m →
  ∃ m' w',
    hash_map_clear m w = Some (m', w') ∧
    bucket m' = zeroed_buckets (num_bucket m) ∧
    all_entries m' = [] ∧
    (∀ k, hash_map_has_key m' k = Some false) ∧
    hash_map_size m' = hash_map_size m.
Proof.
  intros Hwf. eexists _, _. split; [by apply hash_map_clear_run|].
  split; [done|]. split; [apply all_entries_with_empty_buckets|].
  split; [|done]. intros k.
  by rewrite hash_map_has_key_lookup, lookup_entry_with_empty_buckets.
Qed.

(** C1: [clear] on the sample map (two entries) removes both chains, so
    that the bucket array equals that of a newly constructed map with the
    same configuration and neither key is present any more; but [size]
    still returns 2, where the new map returns 0. *)
Theorem clear_leaves_size_stale :
  ∃ fresh w1 cleared w2,
    hash_map_new 2 (λ k, k) (Some 100) (Some 200) None quiet_world
    = Some (Some fresh, w1) ∧
    hash_map_clear sample_map quiet_world = Some (cleared, w2) ∧
    bucket cleared = bucket fresh ∧
    hash_map_has_key cleared 1 = Some false ∧
    hash_map_has_key cleared 3 = Some false ∧
    hash_map_size fresh = 0 ∧
    hash_map_size cleared = 2.
Proof.
  eexists _, _, _, _. split; [reflexivity|]. split; [reflexivity|].
  by repeat split.
Qed.

(** ** The counter invariant *)

(** C2: two reachable states in which [hash_size] differs from the number
    of stored entries.  After two insertions and a [clear] the counter is
    2 with no entry stored; after an insertion whose entry record could
    not be allocated the counter is 1 with no entry stored.  The bucket
    count is non-zero in both. *)
Theorem counter_invariant_broken :
  (∃ m0 w0 m w,
     hash_map_new 2 (λ k, k) (Some 100) (Some 200) None quiet_world
     = Some (Some m0, w0) ∧
     run_ops [OpSet 1 11; OpSet 3 33; OpClear] m0 w0 = Some (m, w) ∧
     hash_size m = 2 ∧ entry_count m = O ∧ ¬ counter_matches m ∧
     num_bucket m ≠ 0) ∧
  (∃ m0 w0 m w,
     hash_map_new 2 (λ k, k) (Some 100) (Some 200) None
       {| alloc_plan := [true; true; true; false]; trace := [] |}
     = Some (Some m0, w0) ∧
     run_ops [OpSet 1 11] m0 w0 = Some (m, w) ∧
     hash_size m = 1 ∧ entry_count m = O ∧ ¬ counter_matches m ∧
     num_bucket m ≠ 0).
Proof.
  split; eexists _, _, _, _; (split; [reflexivity|]); (split; [reflexivity|]);
    repeat split; done.
Qed.


(** What [new], [erase] and a successful [set] do keep. *)

Lemma entry_count_installed m i l0 chain n :
  bucket_list m i = Some l0 →
  (entry_count (installed m i chain n) + length (default [] l0))%nat
  = (entry_count m + length chain)%nat.
Proof.
  intros Hl. pose proof (bucket_list_in_range _ _ _ Hl) as Hlt.
  unfold entry_count.
  rewrite all_entries_installed, (all_entries_split m i l0) by done.
  rewrite !length_app. lia.
Qed.

Lemma set_success_keeps_counter m k d w m' w' :
  counter_matches m → N.of_nat (entry_count m) + 1 < SIZE_MODULUS →
  hash_map_set m k d w = Some ((true, m'), w') →
  counter_matches m'.
Proof.
  unfold counter_matches. intros Hcnt Hroom Hrun.
  apply hash_map_set_cases in Hrun as (_ & i & l0 & Hi & Hl & Hcase).
  destruct Hcase as [(_ & [=] & _)|(ok & Hok & Hcase)].
  simpl in Hok, Hcase. subst ok.
  destruct (find_in_chain m (default [] l0) k) as [e|] eqn:Hfind;
    destruct Hcase as [-> _].
  - pose proof (entry_count_installed m i l0
      (remove_first e (default [] l0) ++ [{| key := k; data := d |}])
      (hash_size m) Hl) as Hlen.
    apply find_in_chain_Some in Hfind as [Hin _].
    apply length_remove_first in Hin.
    rewrite length_app in Hlen. simpl in Hlen. simpl. lia.
  - pose proof (entry_count_installed m i l0
      (default [] l0 ++ [{| key := k; data := d |}])
      (size_incr (hash_size m)) Hl) as Hlen.
    rewrite length_app in Hlen. simpl in Hlen. simpl.
    rewrite size_incr_small in Hlen |- * by lia. lia.
Qed.

Lemma erase_keeps_counter m k w r w' :
  hash_map_wf m → counter_matches m →
  hash_map_erase m k w = Some (r, w') →
  counter_matches (snd r).
Proof.
  unfold counter_matches. intros (_ & _ & Hsz) Hcnt Hrun.
  apply hash_map_erase_cases in Hrun as (i & l0 & Hi & Hl & Hcase).
  destruct (find_bucket_entry_ m l0 k) as [e|] eqn:Hfind;
    destruct Hcase as [-> _]; [|done].
  destruct l0 as [l|]; [|done]. simpl in *.
  pose proof (entry_count_installed m i (Some l) (remove_first e l)
                (size_decr (hash_size m)) Hl) as Hlen.
  apply find_in_chain_Some in Hfind as [Hin _].
  apply length_remove_first in Hin. simpl in Hlen.
  pose proof (size_decr_pos (hash_size m)) as Hdec. lia.
Qed.

(** ** Key uniqueness and non-NULL data are kept *)


Lemma count_matches_remove_first_le m l k e :
  (count_matches m (remove_first e l) k ≤ count_matches m l k)%nat.
Proof.
  induction l as [|x rest IH]; simpl; [done|].
  destruct (decide (x = e)); simpl; lia.
Qed.





Lemma zeroed_buckets_no_chains n :
  Forall (λ b, b_list b = None) (zeroed_buckets n).
Proof. unfold zeroed_buckets. by apply Forall_replicate. Qed.









(** ** Scenarios *)

(** Four buckets and keys hashing to buckets 0, 0, 1 and 2: all four keys
    are stored and retrievable in spite of the collision, and erasing one
    of the colliding keys leaves the other retrievable. *)
Example collision_scenario :
  (do created <- hash_map_new 4 (λ k, k) None None None;
   match created with
   | None => ret None
   | Some m0 =>
       do m <- run_ops [OpSet 4 40; OpSet 8 80; OpSet 1 10; OpSet 2 20] m0;
       do r <- hash_map_erase m 4;
       ret (Some (hash_map_size m,
                  (hash_map_has_key m 4, hash_map_has_key m 8,
                   hash_map_has_key m 1, hash_map_has_key m 2),
                  (hash_map_get m 4, hash_map_get m 8,
                   hash_map_get m 1, hash_map_get m 2),
                  fst r, hash_map_size (snd r),
                  hash_map_has_key (snd r) 4, hash_map_get (snd r) 8))
   end) quiet_world
  = Some (Some (4,
                (Some true, Some true, Some true, Some true),
                (Some 40, Some 80, Some 10, Some 20),
                true, 3, Some false, Some 80),
          {| alloc_plan := [];
             trace := [EvRelease {| key := 4; data := 40 |}] |}).
Proof. reflexivity. Qed.

(** A zero bucket count is a contract violation, and a failed allocation of
    the map or of its bucket array yields no map. *)
Example construction_failures :
  hash_map_new 0 (λ k, k) None None None quiet_world = None ∧
  hash_map_new 2 (λ k, k) None None None {| alloc_plan := [false]; trace := [] |}
  = Some (None, quiet_world) ∧
  hash_map_new 2 (λ k, k) None None None
    {| alloc_plan := [true; false]; trace := [] |}
  = Some (None, quiet_world).
Proof. by repeat split. Qed.

(** Replacing a key on a map with both hooks runs them on the old key and
    the old data, then releases the old record. *)
Example replacement_trace :
  snd <$> hash_map_set sample_map 1 12 quiet_world
  = Some {| alloc_plan := [];
            trace := [EvCall 100 1; EvCall 200 11;
                      EvRelease {| key := 1; data := 11 |}] |}.
Proof. reflexivity. Qed.

(** * Further properties of the code *)

(** ** Construction and destruction *)



(** X2: with a non-zero bucket count [hash_map_new] always returns, calls
    no hook, and returns NULL exactly when one of its two allocation
    requests (the map, then the bucket array) is refused. *)
Theorem new_fails_only_on_allocation n hf kf df ef w :
  n ≠ 0 →
  ∃ r w',
    hash_map_new n hf kf df ef w = Some (r, w') ∧
    trace w' = trace w ∧
    (r = None ↔ false ∈ take 2 (alloc_plan w)).
Proof.
  intros Hn.
  unfold hash_map_new, hash_map_new_internal, bind, assert_, ret, abort, alloc.
  destruct (N.ltb_spec 0 n) as [_|]; [|lia].
  destruct w as [plan tr]. simpl.
  destruct plan as [|[] [|[] plan]]; simpl; eexists _, _;
    (split; [reflexivity|]); (split; [reflexivity|]);
    rewrite ?elem_of_cons, ?elem_of_nil; intuition (try discriminate).
Qed.

Lemma new_fails_only_on_allocation_witness :
  ∃ r w',
    hash_map_new 2 (λ k, k) None None None
      {| alloc_plan := [true; false]; trace := [] |} = Some (r, w') ∧
    trace w' = [] ∧
    (r = None ↔ false ∈ take 2 [true; false]).
Proof.
  apply (new_fails_only_on_allocation 2 (λ k, k) None None None
           {| alloc_plan := [true; false]; trace := [] |}).
  done.
Defined.



(** X4: [hash_map_clear] hands every stored entry to the cleanup protocol
    exactly once, in bucket order then chain order, resets every bucket's
    chain pointer to NULL, and leaves the bucket count, the hash function,
    the hooks and the equality predicate as they were. *)
Theorem clear_cleans_every_entry_once m w :
  hash_map_wf m →
  ∃ m',
    hash_map_clear m w
    = Some (m', logged (concat (cleanup_events m <$> all_entries m)) w) ∧
    Forall (λ b, b_list b = None) (bucket m') ∧
    same_config m m' ∧
    (∀ k, hash_map_get m' k = Some NULL).
Proof.
  intros Hwf. exists (with_empty_buckets m).
  split; [by apply hash_map_clear_run|].
  split; [apply zeroed_buckets_no_chains|]. split.
  - repeat split. simpl. unfold zeroed_buckets. rewrite length_replicate.
    by destruct Hwf as (_ & -> & _).
  - intros k. by rewrite hash_map_get_lookup, lookup_entry_with_empty_buckets.
Qed.

Lemma clear_cleans_every_entry_once_witness :
  ∃ m',
    hash_map_clear sample_map quiet_world
    = Some (m', logged [EvCall 100 1; EvCall 200 11;
                        EvRelease {| key := 1; data := 11 |};
                        EvCall 100 3; EvCall 200 33;
                        EvRelease {| key := 3; data := 33 |}] quiet_world) ∧
    Forall (λ b, b_list b = None) (bucket m') ∧
    same_config sample_map m' ∧
    (∀ k, hash_map_get m' k = Some NULL).
Proof.
  apply (clear_cleans_every_entry_once sample_map quiet_world sample_map_wf).
Defined.

(** ** Insertion paths *)

(** X5: a successful [set] of a key that is not present appends the pair
    at the tail of the chain of the key's bucket (creating the chain if
    the bucket had none) and leaves the other buckets alone; the key is
    then present, [get] returns the data, the counter is incremented, one
    more entry is stored, and no hook is called. *)
Theorem set_absent_key_inserts m k d w m' w' :
  keys_are_equal m k k = true →
  hash_map_has_key m k = Some false →
  hash_map_set m k d w = Some ((true, m'), w') →
  ∃ i l0,
    bucket_index m k = Some i ∧ bucket_list m i = Some l0 ∧
    bucket_list m' i
    = Some (Some (default [] l0 ++ [{| key := k; data := d |}])) ∧
    (∀ j, j ≠ i → bucket_list m' j = bucket_list m j) ∧
    hash_map_has_key m' k = Some true ∧
    hash_map_get m' k = Some d ∧
    hash_map_size m' = size_incr (hash_map_size m) ∧
    entry_count m' = S (entry_count m) ∧
    trace w' = trace w.
Proof.
  intros Hrefl Habs Hrun.
  apply has_key_false_inv in Habs as (i & l0 & Hi & Hl & Hfind).
  pose proof (bucket_list_in_range _ _ _ Hl) as Hlt.
  apply hash_map_set_cases in Hrun as (Hd & i' & l0' & Hi' & Hl' & Hcase).
  rewrite Hi in Hi'. injection Hi' as <-.
  rewrite Hl in Hl'. injection Hl' as <-.
  destruct Hcase as [(_ & [=] & _)|(ok & Hok & Hcase)].
  simpl in Hok, Hcase. subst ok.
  assert (find_in_chain m (default [] l0) k = None) as Hnone.
  { by destruct l0. }
  rewrite Hnone in Hcase. destruct Hcase as [-> Htrace].
  exists i, l0. split; [done|]. split; [done|].
  split; [by apply bucket_list_installed_eq|].
  split; [by intros j Hj; apply bucket_list_installed_ne|].
  assert (lookup_entry
            (installed m i (default [] l0 ++ [{| key := k; data := d |}])
               (size_incr (hash_size m))) k
          = Some (Some {| key := k; data := d |})) as Hlook.
  { rewrite lookup_entry_installed_eq by done.
    rewrite find_in_chain_app_r by done. simpl. by rewrite Hrefl. }
  split; [by rewrite hash_map_has_key_lookup, Hlook|].
  split; [by rewrite hash_map_get_lookup, Hlook|].
  split; [done|]. split; [|done].
  pose proof (entry_count_installed m i l0
                (default [] l0 ++ [{| key := k; data := d |}])
                (size_incr (hash_size m)) Hl) as Hlen.
  rewrite length_app in Hlen. simpl in Hlen. lia.
Qed.

Lemma set_absent_key_inserts_witness :
  ∃ m' w' i l0,
    hash_map_set sample_map 5 55 quiet_world = Some ((true, m'), w') ∧
    bucket_index sample_map 5 = Some i ∧ bucket_list sample_map i = Some l0 ∧
    bucket_list m' i
    = Some (Some (default [] l0 ++ [{| key := 5; data := 55 |}])) ∧
    hash_map_get m' 5 = Some 55 ∧
    entry_count m' = S (entry_count sample_map).
Proof.
  eexists _, _.
  destruct (set_absent_key_inserts sample_map 5 55 quiet_world _ _
              eq_refl eq_refl eq_refl)
    as (i & l0 & Hi & Hl & Hb & _ & _ & Hget & _ & Hcount & _).
  exists i, l0. split; [reflexivity|]. by repeat split.
Defined.

(** X6: when the bucket of the key has no chain and the chain cannot be
    allocated, [set] returns false and changes nothing: the map is the
    same, counter included, and no hook is called. *)
Theorem set_chain_alloc_failure_unchanged m k d w i plan :
  d ≠ NULL →
  bucket_index m k = Some i → bucket_list m i = Some None →
  alloc_plan w = false :: plan →
  hash_map_set m k d w
  = Some ((false, m), {| alloc_plan := plan; trace := trace w |}).
Proof.
  intros Hd Hi Hl Hplan.
  rewrite (hash_map_set_no_chain m k d w i) by done.
  unfold pop_alloc. by rewrite Hplan.
Qed.

Lemma set_chain_alloc_failure_unchanged_witness :
  hash_map_set sample_map 4 44 {| alloc_plan := [false]; trace := [] |}
  = Some ((false, sample_map), {| alloc_plan := []; trace := [] |}).
Proof.
  apply (set_chain_alloc_failure_unchanged sample_map 4 44
           {| alloc_plan := [false]; trace := [] |} 0 []); done.
Defined.

(** X7: when the key is present and the entry record cannot be allocated,
    [set] returns false after it has already destroyed the old entry: the
    cleanup protocol has run on it, the key is no longer present, [get]
    answers NULL, one entry less is stored, and the counter has kept its
    value. *)
Theorem set_replace_alloc_failure_loses_entry m k d w plan :
  keys_unique m → d ≠ NULL →
  hash_map_has_key m k = Some true →
  alloc_plan w = false :: plan →
  ∃ old m',
    lookup_entry m k = Some (Some old) ∧
    hash_map_set m k d w
    = Some ((false, m'),
            {| alloc_plan := plan; trace := trace w ++ cleanup_events m old |}) ∧
    hash_map_has_key m' k = Some false ∧
    hash_map_get m' k = Some NULL ∧
    S (entry_count m') = entry_count m ∧
    hash_map_size m' = hash_map_size m.
Proof.
  intros Huniq Hd Hpres Hplan.
  apply has_key_true_inv in Hpres as (i & l & e & Hi & Hl & Hfind).
  pose proof (bucket_list_in_range _ _ _ Hl) as Hlt.
  exists e, (installed m i (remove_first e l) (hash_size m)).
  assert (lookup_entry (installed m i (remove_first e l) (hash_size m)) k
          = Some None) as Hlook.
  { rewrite lookup_entry_installed_eq by done. f_equal.
    eapply find_in_chain_remove_found; [done | by eapply Huniq]. }
  split; [|split; [|split; [|split; [|split]]]].
  - unfold lookup_entry. rewrite Hi. simpl. rewrite Hl. simpl. by rewrite Hfind.
  - rewrite (hash_map_set_found m k d w i l e) by done.
    by rewrite (set_tail_entry_alloc_failure _ _ _ _ _ _ _ plan).
  - by rewrite hash_map_has_key_lookup, Hlook.
  - by rewrite hash_map_get_lookup, Hlook.
  - pose proof (entry_count_installed m i (Some l) (remove_first e l)
                  (hash_size m) Hl) as Hlen.
    apply find_in_chain_Some in Hfind as [Hin _].
    apply length_remove_first in Hin. simpl in Hlen. lia.
  - reflexivity.
Qed.

Lemma set_replace_alloc_failure_loses_entry_witness :
  ∃ old m',
    lookup_entry sample_map 3 = Some (Some old) ∧
    hash_map_set sample_map 3 34 {| alloc_plan := [false]; trace := [] |}
    = Some ((false, m'),
            {| alloc_plan := [];
               trace := [] ++ cleanup_events sample_map old |}) ∧
    hash_map_has_key m' 3 = Some false ∧
    hash_map_get m' 3 = Some NULL ∧
    S (entry_count m') = entry_count sample_map ∧
    hash_map_size m' = hash_map_size sample_map.
Proof.
  apply (set_replace_alloc_failure_loses_entry sample_map 3 34
           {| alloc_plan := [false]; trace := [] |} []).
  - exact sample_map_keys_unique.
  - done.
  - reflexivity.
  - reflexivity.
Defined.

Lemma remove_first_sublist e (l : list_t) : remove_first e l `sublist_of` l.
Proof.
  induction l as [|x rest IH]; simpl; [done|].
  destruct (decide (x = e)); [by apply sublist_cons | by apply sublist_skip].
Qed.

(** X8: a [set] that returns false has stored nothing new, whichever of
    its three allocations failed: the entries of the map afterwards are
    entries it held before, in the same order, and the counter is either
    unchanged or incremented. *)
Theorem failed_set_stores_nothing m k d w m' w' :
  hash_map_set m k d w = Some ((false, m'), w') →
  all_entries m' `sublist_of` all_entries m ∧
  (hash_map_size m' = hash_map_size m ∨
   hash_map_size m' = size_incr (hash_map_size m)).
Proof.
  intros Hrun.
  apply hash_map_set_cases in Hrun as (Hd & i & l0 & Hi & Hl & Hcase).
  pose proof (bucket_list_in_range _ _ _ Hl) as Hlt.
  destruct Hcase as [(_ & [= <-] & _)|(ok & Hok & Hcase)]; [by split; [|left]|].
  simpl in Hok, Hcase. subst ok.
  destruct (find_in_chain m (default [] l0) k) as [e|];
    destruct Hcase as [-> _];
    rewrite all_entries_installed, (all_entries_split m i l0) by done.
  - split; [|by left].
    apply sublist_app; [done|]. apply sublist_app; [|done].
    apply remove_first_sublist.
  - split; [done | by right].
Qed.

Lemma failed_set_stores_nothing_witness :
  ∃ m' w',
    hash_map_set sample_map 3 34 {| alloc_plan := [true; false]; trace := [] |}
    = Some ((false, m'), w') ∧
    all_entries m' `sublist_of` all_entries sample_map ∧
    (hash_map_size m' = hash_map_size sample_map ∨
     hash_map_size m' = size_incr (hash_map_size sample_map)).
Proof.
  eexists _, _. split; [reflexivity|].
  eapply (failed_set_stores_nothing sample_map 3 34
            {| alloc_plan := [true; false]; trace := [] |}).
  reflexivity.
Defined.

(** ** Sequences of operations: what is kept *)

Lemma run_op_same_config m o w m' w' :
  hash_map_wf m → run_op o m w = Some (m', w') → same_config m m'.
Proof.
  intros Hwf Hrun. destruct o as [k d|k|]; simpl in Hrun.
  - unfold bind, ret in Hrun.
    destruct (hash_map_set m k d w) as [[r w1]|] eqn:Hset; [|done].
    injection Hrun as <- <-. by eapply hash_map_set_same_config.
  - unfold bind, ret in Hrun.
    destruct (hash_map_erase m k w) as [[r w1]|] eqn:Her; [|done].
    injection Hrun as <- <-. by eapply hash_map_erase_same_config.
  - rewrite hash_map_clear_run in Hrun by done. injection Hrun as <- <-.
    repeat split. simpl. unfold zeroed_buckets. rewrite length_replicate.
    by destruct Hwf as (_ & -> & _).
Qed.

Lemma run_op_wf m o w m' w' :
  hash_map_wf m → run_op o m w = Some (m', w') → hash_map_wf m'.
Proof.
  intros Hwf Hrun. destruct o as [k d|k|]; simpl in Hrun.
  - unfold bind, ret in Hrun.
    destruct (hash_map_set m k d w) as [[r w1]|] eqn:Hset; [|done].
    injection Hrun as <- <-. by eapply hash_map_set_wf.
  - unfold bind, ret in Hrun.
    destruct (hash_map_erase m k w) as [[r w1]|] eqn:Her; [|done].
    injection Hrun as <- <-. by eapply hash_map_erase_wf.
  - rewrite hash_map_clear_run in Hrun by done. injection Hrun as <- <-.
    by apply with_empty_buckets_wf.
Qed.

Lemma run_op_total m o w :
  hash_map_wf m → passes_data o → ∃ m' w', run_op o m w = Some (m', w').
Proof.
  intros Hwf Hd. destruct o as [k d|k|]; simpl in *.
  - destruct (hash_map_set_total m k d w Hwf Hd) as (r & w' & Hrun).
    unfold bind, ret. rewrite Hrun. by eauto.
  - destruct (hash_map_erase_total m k w Hwf) as (r & w' & Hrun).
    unfold bind, ret. rewrite Hrun. by eauto.
  - rewrite hash_map_clear_run by done. by eauto.
Qed.

(** X9: on a well-formed map no sequence of [set] (with non-NULL data),
    [erase] and [clear] calls stops on a failed assertion or reads the
    bucket array out of bounds, whatever the allocator answers; the map
    that results is well formed again, so that every lookup and every
    [foreach] on it is defined too. *)
Theorem operations_never_abort m ops w :
  hash_map_wf m → Forall passes_data ops →
  ∃ m' w',
    run_ops ops m w = Some (m', w') ∧
    hash_map_wf m' ∧
    (∀ k, is_Some (hash_map_has_key m' k) ∧ is_Some (hash_map_get m' k)) ∧
    (∀ (C : Type) (callback : hash_map_entry_t → C → bool * C) context w0,
       is_Some (hash_map_foreach callback m' context w0)).
Proof.
  intros Hwf Hops. revert m w Hwf.
  induction Hops as [|o rest Ho _ IH]; intros m w Hwf.
  - exists m, w. split; [done|]. split; [done|]. split.
    + intros k. destruct (lookup_entry_defined m k Hwf) as [r Hr].
      rewrite hash_map_has_key_lookup, hash_map_get_lookup, Hr. by split.
    + intros C callback context w0. by rewrite hash_map_foreach_run.
  - destruct (run_op_total m o w Hwf Ho) as (m1 & w1 & Hop).
    destruct (IH m1 w1 (run_op_wf _ _ _ _ _ Hwf Hop)) as (m' & w' & Hrun & Hrest).
    exists m', w'. split; [|done]. simpl. unfold bind. by rewrite Hop.
Qed.

Lemma operations_never_abort_witness :
  ∃ m' w',
    run_ops [OpSet 1 12; OpErase 9; OpClear; OpSet 6 66] sample_map
      {| alloc_plan := [false; true; false]; trace := [] |} = Some (m', w') ∧
    hash_map_wf m' ∧
    (∀ k, is_Some (hash_map_has_key m' k) ∧ is_Some (hash_map_get m' k)) ∧
    (∀ (C : Type) (callback : hash_map_entry_t → C → bool * C) context w0,
       is_Some (hash_map_foreach callback m' context w0)).
Proof.
  apply (operations_never_abort sample_map
           [OpSet 1 12; OpErase 9; OpClear; OpSet 6 66]
           {| alloc_plan := [false; true; false]; trace := [] |}).
  - exact sample_map_wf.
  - repeat constructor; done.
Defined.

Lemma configuration_fixed_aux ops :
  ∀ m w m' w',
    hash_map_wf m → run_ops ops m w = Some (m', w') → same_config m m'.
Proof.
  induction ops as [|o rest IH]; intros m w m' w' Hwf Hrun.
  - simpl in Hrun. unfold ret in Hrun. injection Hrun as <- <-.
    apply same_config_refl.
  - simpl in Hrun. unfold bind in Hrun.
    destruct (run_op o m w) as [[m1 w1]|] eqn:Hop; [|done].
    eapply same_config_trans; [by eapply run_op_same_config|].
    eapply IH; [by eapply run_op_wf | done].
Qed.

(** X10: the bucket count, the length of the bucket array, the hash
    function, both cleanup hooks and the equality predicate are fixed at
    construction: no sequence of [set], [erase] and [clear] calls changes
    them, and [num_buckets] keeps returning the same value. *)
Theorem configuration_is_fixed m ops w m' w' :
  hash_map_wf m →
  run_ops ops m w = Some (m', w') →
  same_config m m' ∧ hash_map_num_buckets m' = hash_map_num_buckets m.
Proof.
  intros Hwf Hrun.
  pose proof (configuration_fixed_aux ops m w m' w' Hwf Hrun) as Hcfg.
  split; [done | by destruct Hcfg].
Qed.

Lemma configuration_is_fixed_witness :
  ∃ m' w',
    run_ops [OpSet 1 12; OpClear; OpSet 6 66] sample_map quiet_world
    = Some (m', w') ∧
    same_config sample_map m' ∧
    hash_map_num_buckets m' = hash_map_num_buckets sample_map.
Proof.
  eexists _, _. split; [reflexivity|].
  eapply (configuration_is_fixed sample_map [OpSet 1 12; OpClear; OpSet 6 66]
            quiet_world).
  - exact sample_map_wf.
  - reflexivity.
Defined.

(** ** Entries stay where their key hashes *)






Lemma count_matches_elem m l k e :
  e ∈ l → keys_are_equal m (key e) k = true → (1 ≤ count_matches m l k)%nat.
Proof.
  induction l as [|x rest IH]; intros Hin He.
  - by apply elem_of_nil in Hin.
  - simpl. apply elem_of_cons in Hin as [<-|Hin]; [rewrite He; lia|].
    specialize (IH Hin He). lia.
Qed.




(** ** The counter when nothing fails *)

Lemma set_tail_no_failure m k d i (chain : list_t) n w :
  alloc_plan w = [] →
  set_tail m k d i chain n w
  = Some ((true, installed m i (chain ++ [{| key := k; data := d |}]) n), w).
Proof.
  intros Hplan. unfold set_tail, list_append, bind, ret, alloc.
  rewrite Hplan. simpl. by rewrite Hplan.
Qed.

Lemma hash_map_set_no_failure m k d w r w' :
  alloc_plan w = [] →
  hash_map_set m k d w = Some (r, w') →
  fst r = true ∧ alloc_plan w' = [].
Proof.
  intros Hplan Hrun.
  pose proof Hrun as Hcases.
  apply hash_map_set_cases in Hcases as (Hd & i & l0 & Hi & Hl & _).
  destruct l0 as [l|].
  - destruct (find_in_chain m l k) as [e|] eqn:Hfind.
    + rewrite (hash_map_set_found m k d w i l e) in Hrun by done.
      rewrite set_tail_no_failure in Hrun by done.
      by injection Hrun as <- <-.
    + rewrite (hash_map_set_not_found m k d w i l) in Hrun by done.
      rewrite set_tail_no_failure in Hrun by done.
      by injection Hrun as <- <-.
  - rewrite (hash_map_set_no_chain m k d w i) in Hrun by done.
    unfold pop_alloc in Hrun. rewrite Hplan in Hrun. simpl in Hrun.
    rewrite set_tail_no_failure in Hrun by done.
    by injection Hrun as <- <-.
Qed.

Lemma length_remove_first_le e (l : list_t) :
  (length (remove_first e l) ≤ length l)%nat.
Proof. apply sublist_length, remove_first_sublist. Qed.

(** One insertion or removal, with an allocator that grants every request,
    keeps the counter exact and stores at most one more entry. *)
Lemma run_op_counter m o w m' w' :
  hash_map_wf m → counter_matches m → alloc_plan w = [] → o ≠ OpClear →
  N.of_nat (entry_count m) + 1 < SIZE_MODULUS →
  run_op o m w = Some (m', w') →
  counter_matches m' ∧ alloc_plan w' = [] ∧
  (entry_count m' ≤ S (entry_count m))%nat.
Proof.
  intros Hwf Hcnt Hplan Ho Hroom Hrun. destruct o as [k d|k|]; [| |done].
  - simpl in Hrun. unfold bind, ret in Hrun.
    destruct (hash_map_set m k d w) as [[[ok m1] w1]|] eqn:Hset; [|done].
    injection Hrun as <- <-.
    destruct (hash_map_set_no_failure _ _ _ _ _ _ Hplan Hset) as [Hok Hplan'].
    simpl in Hok. subst ok. simpl.
    pose proof (set_success_keeps_counter _ _ _ _ _ _ Hcnt Hroom Hset) as Hcnt'.
    split; [done|]. split; [done|].
    apply hash_map_set_cases in Hset as (_ & i & l0 & Hi & Hl & Hcase).
    destruct Hcase as [(_ & [=] & _)|(ok & Hok & Hcase)].
    simpl in Hok, Hcase. subst ok.
    destruct (find_in_chain m (default [] l0) k) as [e|];
      destruct Hcase as [-> _].
    + pose proof (entry_count_installed m i l0
        (remove_first e (default [] l0) ++ [{| key := k; data := d |}])
        (hash_size m) Hl) as Hlen.
      pose proof (length_remove_first_le e (default [] l0)).
      rewrite length_app in Hlen. simpl in Hlen. lia.
    + pose proof (entry_count_installed m i l0
        (default [] l0 ++ [{| key := k; data := d |}])
        (size_incr (hash_size m)) Hl) as Hlen.
      rewrite length_app in Hlen. simpl in Hlen. lia.
  - simpl in Hrun. unfold bind, ret in Hrun.
    destruct (hash_map_erase m k w) as [[r w1]|] eqn:Her; [|done].
    injection Hrun as <- <-.
    pose proof (erase_keeps_counter _ _ _ _ _ Hwf Hcnt Her) as Hcnt'.
    split; [done|].
    apply hash_map_erase_cases in Her as (i & l0 & Hi & Hl & Hcase).
    destruct (find_bucket_entry_ m l0 k) as [e|];
      destruct Hcase as [-> ->]; simpl; [|split; [done | lia]].
    split; [done|].
    pose proof (entry_count_installed m i l0 (remove_first e (default [] l0))
                  (size_decr (hash_size m)) Hl) as Hlen.
    pose proof (length_remove_first_le e (default [] l0)). lia.
Qed.

(** X12: as long as the allocator grants every request and [clear] is not
    called, [set] and [erase] keep the counter equal to the number of
    stored entries (the counter cannot overflow below 2^64 entries), so
    that [size] is that number and [is_empty] is true exactly when no
    entry is stored. *)
Theorem counter_exact_without_failures m ops w m' w' :
  hash_map_wf m → counter_matches m →
  alloc_plan w = [] → OpClear ∉ ops →
  N.of_nat (entry_count m + length ops) < SIZE_MODULUS →
  run_ops ops m w = Some (m', w') →
  hash_map_size m' = N.of_nat (entry_count m') ∧
  (hash_map_is_empty m' = true ↔ all_entries m' = []).
Proof.
  intros Hwf Hcnt Hplan Hnc Hroom Hrun.
  assert (counter_matches m') as Hcnt'.
  { revert m w Hwf Hcnt Hplan Hroom Hrun.
    induction ops as [|o rest IH]; intros m w Hwf Hcnt Hplan Hroom Hrun.
    - simpl in Hrun. unfold ret in Hrun. by injection Hrun as <- <-.
    - simpl in Hrun. unfold bind in Hrun.
      destruct (run_op o m w) as [[m1 w1]|] eqn:Hop; [|done].
      apply not_elem_of_cons in Hnc as [Ho Hrest].
      simpl in Hroom.
      destruct (run_op_counter m o w m1 w1 Hwf Hcnt Hplan) as (Hc1 & Hp1 & Hle);
        [congruence | lia | done |].
      eapply (IH Hrest m1 w1); try done; [by eapply run_op_wf | lia]. }
  split; [exact Hcnt'|].
  unfold hash_map_is_empty. unfold counter_matches in Hcnt'. rewrite Hcnt'.
  unfold entry_count. rewrite N.eqb_eq. split.
  - intros Hz. apply nil_length_inv. lia.
  - by intros ->.
Qed.

Lemma counter_exact_without_failures_witness :
  ∃ m' w',
    run_ops [OpSet 1 12; OpErase 3; OpSet 6 66] sample_map quiet_world
    = Some (m', w') ∧
    hash_map_size m' = N.of_nat (entry_count m') ∧
    (hash_map_is_empty m' = true ↔ all_entries m' = []).
Proof.
  eexists _, _. split; [reflexivity|].
  eapply (counter_exact_without_failures sample_map
            [OpSet 1 12; OpErase 3; OpSet 6 66] quiet_world).
  - exact sample_map_wf.
  - reflexivity.
  - reflexivity.
  - intros Hin. repeat (apply elem_of_cons in Hin as [Hin|Hin]; [done|]).
    by apply elem_of_nil in Hin.
  - reflexivity.
  - reflexivity.
Defined.

(** ** Operations on one key leave the other keys alone *)

(** X13: an insertion or a removal under a key that the predicate does not
    equate with the key of a stored entry leaves that entry in place,
    whether or not the call succeeds: the search that found the entry
    still finds it, so [get] returns the same data and the key is still
    present. *)
Theorem other_keys_untouched m k e o w m' w' :
  lookup_entry m k = Some (Some e) →
  spares m (key e) o →
  run_op o m w = Some (m', w') →
  lookup_entry m' k = Some (Some e) ∧
  hash_map_get m' k = hash_map_get m k ∧
  hash_map_has_key m' k = Some true.
Proof.
  intros Hst Hsp Hrun.
  assert (lookup_entry m' k = Some (Some e)) as Hst'; cycle 1.
  { split; [done|]. by rewrite hash_map_has_key_lookup, !hash_map_get_lookup,
      Hst, Hst'. }
  destruct o as [k' d'|k'|]; simpl in Hsp; [| |done].
  - simpl in Hrun. unfold bind, ret in Hrun.
    destruct (hash_map_set m k' d' w) as [[r w1]|] eqn:Hset; [|done].
    injection Hrun as <- <-.
    apply hash_map_set_cases in Hset as (_ & i' & l0 & Hi' & Hl0 & Hcase).
    destruct Hcase as [(_ & -> & _)|(ok & _ & Hcase)]; [done|].
    destruct (find_in_chain m (default [] l0) k') as [e'|] eqn:Hfind';
      destruct Hcase as [-> _];
      apply (stored_as_installed m k k' e i' l0); try done; intros Hfind.
    + apply find_in_chain_Some in Hfind' as [_ He'].
      assert (e' ≠ e) as Hne by (intros ->; congruence).
      pose proof (find_in_chain_remove_other _ _ _ _ _ Hfind Hne) as Hrem.
      destruct ok; [by apply find_in_chain_app_l | done].
    + destruct ok; [by apply find_in_chain_app_l | done].
  - simpl in Hrun. unfold bind, ret in Hrun.
    destruct (hash_map_erase m k' w) as [[r w1]|] eqn:Her; [|done].
    injection Hrun as <- <-.
    apply hash_map_erase_cases in Her as (i' & l0 & Hi' & Hl0 & Hcase).
    destruct (find_bucket_entry_ m l0 k') as [e'|] eqn:Hfind';
      destruct Hcase as [-> _]; [|done].
    apply (stored_as_installed m k k' e i' l0); try done. intros Hfind.
    destruct l0 as [l|]; [|done]. simpl in *.
    apply find_in_chain_Some in Hfind' as [_ He'].
    apply (find_in_chain_remove_other _ _ _ _ _ Hfind).
    intros ->. congruence.
Qed.

Lemma other_keys_untouched_witness :
  ∃ m' w',
    run_op (OpErase 3) sample_map quiet_world = Some (m', w') ∧
    lookup_entry m' 1 = Some (Some {| key := 1; data := 11 |}) ∧
    hash_map_get m' 1 = hash_map_get sample_map 1 ∧
    hash_map_has_key m' 1 = Some true.
Proof.
  eexists _, _. split; [reflexivity|].
  eapply (other_keys_untouched sample_map 1 {| key := 1; data := 11 |}
            (OpErase 3) quiet_world); reflexivity.
Defined.

Lemma find_in_chain_remove_none m l k e :
  find_in_chain m l k = None → find_in_chain m (remove_first e l) k = None.
Proof.
  rewrite !find_in_chain_None. intros Hz.
  pose proof (count_matches_remove_first_le m l k e). lia.
Qed.

Lemma absent_installed m k k' i' l0 chain n :
  lookup_entry m k = Some None →
  bucket_index m k' = Some i' → bucket_list m i' = Some l0 →
  (find_in_chain m (default [] l0) k = None → find_in_chain m chain k = None) →
  lookup_entry (installed m i' chain n) k = Some None.
Proof.
  intros Habs Hi' Hl0 Hkeep.
  pose proof (bucket_list_in_range _ _ _ Hl0) as Hlt.
  unfold lookup_entry in Habs.
  destruct (bucket_index m k) as [i|] eqn:Hi; simpl in Habs; [|done].
  destruct (bucket_list m i) as [l|] eqn:Hl; simpl in Habs; [|done].
  injection Habs as Habs.
  destruct (decide (i' = i)) as [->|Hne].
  - rewrite lookup_entry_installed_eq by done. f_equal. apply Hkeep.
    rewrite Hl in Hl0. injection Hl0 as <-. by destruct l.
  - rewrite (lookup_entry_installed_ne m i' i) by done.
    unfold lookup_entry. rewrite Hi. simpl. rewrite Hl. simpl. by rewrite Habs.
Qed.

(** X14: a key that is not present stays not present through [erase] and
    [clear] calls and through [set] calls under keys that the predicate
    does not equate with it, whether or not those calls succeed: no
    operation makes a key present other than a [set] under that key. *)
Theorem absent_keys_stay_absent m k o w m' w' :
  hash_map_wf m →
  hash_map_has_key m k = Some false →
  adds_no_match m k o →
  run_op o m w = Some (m', w') →
  hash_map_has_key m' k = Some false ∧ hash_map_get m' k = Some NULL.
Proof.
  intros Hwf Habs Hadd Hrun.
  assert (lookup_entry m k = Some None) as Hlook.
  { apply has_key_false_inv in Habs as (i & l & Hi & Hl & Hfind).
    unfold lookup_entry. rewrite Hi. simpl. rewrite Hl. simpl. by rewrite Hfind. }
  assert (lookup_entry m' k = Some None) as Hlook'; cycle 1.
  { by rewrite hash_map_has_key_lookup, hash_map_get_lookup, Hlook'. }
  destruct o as [k' d'|k'|]; simpl in Hadd.
  - simpl in Hrun. unfold bind, ret in Hrun.
    destruct (hash_map_set m k' d' w) as [[r w1]|] eqn:Hset; [|done].
    injection Hrun as <- <-.
    apply hash_map_set_cases in Hset as (_ & i' & l0 & Hi' & Hl0 & Hcase).
    destruct Hcase as [(_ & -> & _)|(ok & _ & Hcase)]; [done|].
    destruct (find_in_chain m (default [] l0) k') as [e'|];
      destruct Hcase as [-> _];
      apply (absent_installed m k k' i' l0); try done; intros Hnone;
      destruct ok; try done.
    + rewrite find_in_chain_app_r by (by apply find_in_chain_remove_none).
      simpl. by rewrite Hadd.
    + by apply find_in_chain_remove_none.
    + rewrite find_in_chain_app_r by done. simpl. by rewrite Hadd.
  - simpl in Hrun. unfold bind, ret in Hrun.
    destruct (hash_map_erase m k' w) as [[r w1]|] eqn:Her; [|done].
    injection Hrun as <- <-.
    apply hash_map_erase_cases in Her as (i' & l0 & Hi' & Hl0 & Hcase).
    destruct (find_bucket_entry_ m l0 k') as [e'|];
      destruct Hcase as [-> _]; [|done].
    apply (absent_installed m k k' i' l0); try done. intros Hnone.
    by apply find_in_chain_remove_none.
  - simpl in Hrun. rewrite hash_map_clear_run in Hrun by done.
    injection Hrun as <- <-. by apply lookup_entry_with_empty_buckets.
Qed.

Lemma absent_keys_stay_absent_witness :
  ∃ m' w',
    run_op (OpSet 7 77) sample_map quiet_world = Some (m', w') ∧
    hash_map_has_key m' 5 = Some false ∧ hash_map_get m' 5 = Some NULL.
Proof.
  eexists _, _. split; [reflexivity|].
  eapply (absent_keys_stay_absent sample_map 5 (OpSet 7 77) quiet_world).
  - exact sample_map_wf.
  - reflexivity.
  - reflexivity.
  - reflexivity.
Defined.

(** ** Compositions *)

Lemma hash_map_erase_found m k w i l e :
  bucket_index m k = Some i → bucket_list m i = Some (Some l) →
  find_in_chain m l k = Some e →
  hash_map_erase m k w
  = Some ((true, installed m i (remove_first e l) (size_decr (hash_size m))),
          logged (cleanup_events m e) w).
Proof.
  intros Hi Hl Hfind. destruct (find_in_chain_Some _ _ _ _ Hfind) as [Hin _].
  unfold hash_map_erase, bind, defined, ret. rewrite Hi, Hl.
  cbn [find_bucket_entry_]. rewrite Hfind.
  by rewrite (list_remove_found m l e w Hin).
Qed.

Lemma hash_map_erase_not_found m k w :
  lookup_entry m k = Some None → hash_map_erase m k w = Some ((false, m), w).
Proof.
  unfold lookup_entry, hash_map_erase, bind, defined, ret.
  destruct (bucket_index m k) as [i|]; simpl; [|done].
  destruct (bucket_list m i) as [l|]; simpl; [|done].
  intros [= Hfind]. by rewrite Hfind.
Qed.

Lemma installed_installed m i c1 n1 c2 n2 :
  installed (installed m i c1 n1) i c2 n2 = installed m i c2 n2.
Proof.
  unfold installed, set_hash_size, set_bucket_list. simpl.
  by rewrite list_insert_insert_eq.
Qed.

Lemma remove_first_appended e (l : list_t) :
  e ∉ l → remove_first e (l ++ [e]) = l.
Proof.
  induction l as [|x rest IH]; intros Hnin; simpl.
  - by destruct (decide (e = e)).
  - apply not_elem_of_cons in Hnin as [Hne Hnin].
    destruct (decide (x = e)); [congruence|]. by rewrite IH.
Qed.

(** X15: inserting a key that is not present and erasing it again gives
    back the stored entries as they were: the [erase] returns true, runs
    the cleanup protocol on the inserted pair only, the key is not
    present afterwards, and the counter has its old value (short of the
    maximum of its type). *)
Theorem set_then_erase_restores m k d w m1 w1 :
  keys_are_equal m k k = true →
  hash_map_has_key m k = Some false →
  hash_map_set m k d w = Some ((true, m1), w1) →
  ∃ m2,
    hash_map_erase m1 k w1
    = Some ((true, m2),
            logged (cleanup_events m {| key := k; data := d |}) w1) ∧
    all_entries m2 = all_entries m ∧
    hash_map_has_key m2 k = Some false ∧
    (hash_map_size m + 1 < SIZE_MODULUS → hash_map_size m2 = hash_map_size m).
Proof.
  intros Hrefl Habs Hrun.
  apply has_key_false_inv in Habs as (i & l0 & Hi & Hl & Hfind).
  pose proof (bucket_list_in_range _ _ _ Hl) as Hlt.
  assert (find_in_chain m (default [] l0) k = None) as Hnone.
  { by destruct l0. }
  apply hash_map_set_cases in Hrun as (Hd & i' & l0' & Hi' & Hl' & Hcase).
  rewrite Hi in Hi'. injection Hi' as <-.
  rewrite Hl in Hl'. injection Hl' as <-.
  destruct Hcase as [(_ & [=] & _)|(ok & Hok & Hcase)].
  simpl in Hok, Hcase. subst ok. rewrite Hnone in Hcase.
  destruct Hcase as [-> _].
  set (new := {| key := k; data := d |}).
  set (m1 := installed m i (default [] l0 ++ [new]) (size_incr (hash_size m))).
  assert (new ∉ default [] l0) as Hnin.
  { intros Hin. apply find_in_chain_None in Hnone.
    pose proof (count_matches_elem m _ k new Hin Hrefl). lia. }
  assert (hash_map_erase m1 k w1
          = Some ((true, installed m1 i
                           (remove_first new (default [] l0 ++ [new]))
                           (size_decr (hash_size m1))),
                  logged (cleanup_events m1 new) w1)) as Her.
  { apply hash_map_erase_found; [done | by apply bucket_list_installed_eq |].
    rewrite (find_in_chain_config m) by done.
    rewrite find_in_chain_app_r by done. simpl. by rewrite Hrefl. }
  rewrite remove_first_appended in Her by done.
  unfold m1 in Her at 2. rewrite installed_installed in Her.
  eexists. split; [exact Her|]. split; [|split].
  - rewrite all_entries_installed by done. symmetry. by apply all_entries_split.
  - rewrite hash_map_has_key_lookup, lookup_entry_installed_eq by done.
    simpl. by rewrite Hnone.
  - intros Hsmall. unfold hash_map_size, m1 in *. simpl.
    rewrite size_incr_small by done.
    pose proof (size_decr_pos (hash_size m + 1)) as Hdec. lia.
Qed.

Lemma set_then_erase_restores_witness :
  ∃ m1 w1 m2,
    hash_map_set sample_map 5 55 quiet_world = Some ((true, m1), w1) ∧
    hash_map_erase m1 5 w1
    = Some ((true, m2),
            logged (cleanup_events sample_map {| key := 5; data := 55 |}) w1) ∧
    all_entries m2 = all_entries sample_map ∧
    hash_map_has_key m2 5 = Some false ∧
    (hash_map_size sample_map + 1 < SIZE_MODULUS →
     hash_map_size m2 = hash_map_size sample_map).
Proof.
  eexists _, _.
  destruct (set_then_erase_restores sample_map 5 55 quiet_world _ _
              eq_refl eq_refl eq_refl) as (m2 & Her & Hall & Habs & Hsz).
  exists m2. split; [reflexivity|]. by repeat split.
Defined.

(** X16: on a map with unique keys, once [erase] has returned for a key, a
    second [erase] of the same key returns false and changes nothing and
    calls no hook. *)
Theorem erase_twice_is_noop m k w b m' w' :
  keys_unique m →
  hash_map_erase m k w = Some ((b, m'), w') →
  hash_map_erase m' k w' = Some ((false, m'), w').
Proof.
  intros Huniq Hrun. apply hash_map_erase_not_found.
  apply hash_map_erase_cases in Hrun as (i & l0 & Hi & Hl & Hcase).
  pose proof (bucket_list_in_range _ _ _ Hl) as Hlt.
  destruct (find_bucket_entry_ m l0 k) as [e|] eqn:Hfind.
  - destruct Hcase as [[= -> ->] _].
    rewrite lookup_entry_installed_eq by done. f_equal.
    destruct l0 as [l|]; [|done]. simpl in *.
    eapply find_in_chain_remove_found; [done | by eapply Huniq].
  - destruct Hcase as [[= -> ->] _].
    unfold lookup_entry. rewrite Hi. simpl. rewrite Hl. simpl. by rewrite Hfind.
Qed.

Lemma erase_twice_is_noop_witness :
  ∃ m' w',
    hash_map_erase sample_map 3 quiet_world = Some ((true, m'), w') ∧
    hash_map_erase m' 3 w' = Some ((false, m'), w').
Proof.
  eexists _, _. split; [reflexivity|].
  eapply (erase_twice_is_noop sample_map 3 quiet_world true).
  - exact sample_map_keys_unique.
  - reflexivity.
Defined.

(** X17: [get] never returns a reference the map does not hold: a non-NULL
    answer is the data of a stored entry whose key the predicate equates
    with the key asked for, found in the bucket that key hashes to, and
    the key is then present. *)
Theorem get_returns_stored_data m k d :
  hash_map_get m k = Some d → d ≠ NULL →
  ∃ i l e,
    bucket_index m k = Some i ∧ bucket_list m i = Some (Some l) ∧
    e ∈ l ∧ e ∈ all_entries m ∧
    data e = d ∧ keys_are_equal m (key e) k = true ∧
    hash_map_has_key m k = Some true.
Proof.
  rewrite hash_map_get_lookup, hash_map_has_key_lookup.
  unfold lookup_entry.
  destruct (bucket_index m k) as [i|] eqn:Hi; simpl; [|done].
  destruct (bucket_list m i) as [[l|]|] eqn:Hl; simpl; try done.
  - destruct (find_in_chain m l k) as [e|] eqn:Hfind; simpl.
    + intros [= <-] _. apply find_in_chain_Some in Hfind as [Hin He].
      exists i, l, e. repeat split; try done.
      by eapply chain_in_all_entries.
    + by intros [= <-].
  - by intros [= <-].
Qed.

Lemma get_returns_stored_data_witness :
  ∃ i l e,
    bucket_index sample_map 3 = Some i ∧
    bucket_list sample_map i = Some (Some l) ∧
    e ∈ l ∧ e ∈ all_entries sample_map ∧
    data e = 33 ∧ keys_are_equal sample_map (key e) 3 = true ∧
    hash_map_has_key sample_map 3 = Some true.
Proof. apply (get_returns_stored_data sample_map 3 33); done. Defined.

(** ** Insertions of distinct keys *)

Lemma set_absent_default_step m k d w :
  hash_map_wf m → keys_are_equal m = default_key_equality →
  alloc_plan w = [] → d ≠ NULL →
  lookup_entry m k = Some None →
  ∃ m1,
    hash_map_set m k d w = Some ((true, m1), w) ∧
    hash_map_wf m1 ∧ keys_are_equal m1 = default_key_equality ∧
    hash_size m1 = size_incr (hash_size m) ∧
    lookup_entry m1 k = Some (Some {| key := k; data := d |}) ∧
    (∀ k', k' ≠ k → lookup_entry m1 k' = lookup_entry m k').
Proof.
  intros Hwf Heq Hplan Hd Habs.
  unfold lookup_entry in Habs.
  destruct (bucket_index m k) as [i|] eqn:Hi; simpl in Habs; [|done].
  destruct (bucket_list m i) as [l0|] eqn:Hl; simpl in Habs; [|done].
  injection Habs as Hfind.
  pose proof (bucket_list_in_range _ _ _ Hl) as Hlt.
  assert (find_in_chain m (default [] l0) k = None) as Hnone.
  { by destruct l0. }
  exists (installed m i (default [] l0 ++ [{| key := k; data := d |}])
            (size_incr (hash_size m))).
  split; [|split; [|split; [done|split; [done|split]]]].
  - destruct l0 as [l|]; simpl in *.
    + rewrite (hash_map_set_not_found m k d w i l) by done.
      by apply set_tail_no_failure.
    + rewrite (hash_map_set_no_chain m k d w i) by done.
      unfold pop_alloc. rewrite Hplan. simpl. by apply set_tail_no_failure.
  - apply (hash_map_wf_same_config m); [done | apply same_config_installed |].
    apply size_incr_lt.
  - rewrite lookup_entry_installed_eq by done.
    rewrite find_in_chain_app_r by done. simpl.
    rewrite Heq. unfold default_key_equality. by rewrite N.eqb_refl.
  - intros k' Hne.
    destruct (bucket_index_defined m k' Hwf) as (j & Hj & _).
    destruct (decide (i = j)) as [<-|Hij].
    + rewrite lookup_entry_installed_eq by done.
      unfold lookup_entry. rewrite Hj. simpl. rewrite Hl. simpl. f_equal.
      assert (find_bucket_entry_ m l0 k' = find_in_chain m (default [] l0) k')
        as -> by (by destruct l0).
      destruct (find_in_chain m (default [] l0) k') as [e|] eqn:Hf.
      * by apply find_in_chain_app_l.
      * rewrite find_in_chain_app_r by done. simpl.
        rewrite Heq. unfold default_key_equality.
        by destruct (N.eqb_spec k k'); [congruence|].
    + by apply (lookup_entry_installed_ne m i j).
Qed.

Lemma insertions_run kds :
  ∀ m w,
    hash_map_wf m → keys_are_equal m = default_key_equality →
    alloc_plan w = [] →
    NoDup (fst <$> kds) → Forall (λ kd, snd kd ≠ NULL) kds →
    (∀ k, k ∈ fst <$> kds → lookup_entry m k = Some None) →
    hash_size m + N.of_nat (length kds) < SIZE_MODULUS →
    ∃ m',
      run_ops (insertions kds) m w = Some (m', w) ∧
      hash_size m' = hash_size m + N.of_nat (length kds) ∧
      (∀ k d, (k, d) ∈ kds →
              lookup_entry m' k = Some (Some {| key := k; data := d |})) ∧
      (∀ k, k ∉ fst <$> kds → lookup_entry m' k = lookup_entry m k).
Proof.
  induction kds as [|[k d] rest IH];
    intros m w Hwf Heq Hplan Hnd Hdata Habs Hroom.
  - exists m. simpl. split; [done|]. split; [lia|]. split; [|done].
    intros k d Hin. by apply elem_of_nil in Hin.
  - simpl in Hnd. apply list.NoDup_cons in Hnd as [Hk Hnd].
    apply Forall_cons_1 in Hdata as [Hd Hdata]. simpl in Hd.
    destruct (set_absent_default_step m k d w Hwf Heq Hplan Hd)
      as (m1 & Hset & Hwf1 & Heq1 & Hsz1 & Hnew & Hframe).
    { apply Habs. simpl. apply elem_of_cons. by left. }
    rewrite size_incr_small in Hsz1 by (simpl in Hroom; lia).
    destruct (IH m1 w Hwf1 Heq1 Hplan Hnd Hdata) as (m' & Hrun & Hsz & Hin & Hout).
    { intros k' Hk'. rewrite Hframe by (intros ->; done).
      apply Habs. simpl. apply elem_of_cons. by right. }
    { simpl in Hroom. lia. }
    exists m'. split; [|split; [|split]].
    + simpl. unfold bind, ret. rewrite Hset. simpl. exact Hrun.
    + simpl length. lia.
    + intros k0 d0 Hkd. apply elem_of_cons in Hkd as [[= -> ->]|Hkd].
      * by rewrite Hout.
      * by apply Hin.
    + intros k0 Hk0. simpl in Hk0. apply not_elem_of_cons in Hk0 as [Hne Hk0].
      rewrite Hout by done. by apply Hframe.
Qed.

(** X18: with pointer identity as equality predicate and an allocator
    that grants every request, inserting pairs with pairwise distinct
    keys, none of them present before, succeeds for each pair without
    calling any hook: [size] grows by the number of pairs, every inserted
    key is present and [get] returns its data, and every other key is
    looked up as before. *)
Theorem distinct_keys_all_stored m kds w :
  hash_map_wf m → keys_are_equal m = default_key_equality →
  alloc_plan w = [] →
  NoDup (fst <$> kds) → Forall (λ kd, snd kd ≠ NULL) kds →
  (∀ k, k ∈ fst <$> kds → hash_map_has_key m k = Some false) →
  hash_map_size m + N.of_nat (length kds) < SIZE_MODULUS →
  ∃ m',
    run_ops (insertions kds) m w = Some (m', w) ∧
    hash_map_size m' = hash_map_size m + N.of_nat (length kds) ∧
    (∀ k d, (k, d) ∈ kds →
            hash_map_has_key m' k = Some true ∧ hash_map_get m' k = Some d) ∧
    (∀ k, k ∉ fst <$> kds →
          hash_map_has_key m' k = hash_map_has_key m k ∧
          hash_map_get m' k = hash_map_get m k).
Proof.
  intros Hwf Heq Hplan Hnd Hdata Habs Hroom.
  destruct (insertions_run kds m w Hwf Heq Hplan Hnd Hdata)
    as (m' & Hrun & Hsz & Hin & Hout); [|done|].
  { intros k Hk. specialize (Habs k Hk).
    apply has_key_false_inv in Habs as (i & l & Hi & Hl & Hfind).
    unfold lookup_entry. rewrite Hi. simpl. rewrite Hl. simpl. by rewrite Hfind. }
  exists m'. split; [done|]. split; [done|]. split.
  - intros k d Hkd.
    by rewrite hash_map_has_key_lookup, hash_map_get_lookup, (Hin k d Hkd).
  - intros k Hk.
    by rewrite !hash_map_has_key_lookup, !hash_map_get_lookup, (Hout k Hk).
Qed.

Lemma distinct_keys_all_stored_witness :
  ∃ m',
    run_ops (insertions [(5, 55); (7, 77); (4, 44)]) sample_map quiet_world
    = Some (m', quiet_world) ∧
    hash_map_size m' = hash_map_size sample_map + N.of_nat 3 ∧
    (∀ k d, (k, d) ∈ [(5, 55); (7, 77); (4, 44)] →
            hash_map_has_key m' k = Some true ∧ hash_map_get m' k = Some d) ∧
    (∀ k, k ∉ fst <$> [(5, 55); (7, 77); (4, 44)] →
          hash_map_has_key m' k = hash_map_has_key sample_map k ∧
          hash_map_get m' k = hash_map_get sample_map k).
Proof.
  apply (distinct_keys_all_stored sample_map [(5, 55); (7, 77); (4, 44)]
           quiet_world).
  - exact sample_map_wf.
  - reflexivity.
  - reflexivity.
  - simpl. repeat (apply list.NoDup_cons; split;
      [rewrite ?elem_of_cons, elem_of_nil; intuition discriminate|]).
    by apply list.NoDup_nil.
  - repeat constructor; done.
  - intros k Hk. simpl in Hk.
    repeat (apply elem_of_cons in Hk as [->|Hk]; [reflexivity|]).
    by apply elem_of_nil in Hk.
  - reflexivity.
Defined.

(** ** The counter never undercounts *)

Lemma run_op_counter_bound m o w m' w' :
  hash_map_wf m →
  N.of_nat (entry_count m) ≤ hash_size m →
  hash_size m + 1 < SIZE_MODULUS →
  run_op o m w = Some (m', w') →
  N.of_nat (entry_count m') ≤ hash_size m' ∧ hash_size m' ≤ hash_size m + 1.
Proof.
  intros Hwf Hle Hroom Hrun. destruct o as [k d|k|]; simpl in Hrun.
  - unfold bind, ret in Hrun.
    destruct (hash_map_set m k d w) as [[r w1]|] eqn:Hset; [|done].
    injection Hrun as <- <-.
    apply hash_map_set_cases in Hset as (_ & i & l0 & Hi & Hl & Hcase).
    destruct Hcase as [(_ & -> & _)|(ok & _ & Hcase)]; [simpl; lia|].
    destruct (find_in_chain m (default [] l0) k) as [e|] eqn:Hfind;
      destruct Hcase as [-> _]; simpl.
    + apply find_in_chain_Some in Hfind as [Hin _].
      apply length_remove_first in Hin.
      destruct ok.
      * pose proof (entry_count_installed m i l0
          (remove_first e (default [] l0) ++ [{| key := k; data := d |}])
          (hash_size m) Hl) as Hlen.
        rewrite length_app in Hlen. simpl in Hlen. lia.
      * pose proof (entry_count_installed m i l0
          (remove_first e (default [] l0)) (hash_size m) Hl) as Hlen. lia.
    + rewrite size_incr_small by done. destruct ok.
      * pose proof (entry_count_installed m i l0
          (default [] l0 ++ [{| key := k; data := d |}])
          (hash_size m + 1) Hl) as Hlen.
        rewrite length_app in Hlen. simpl in Hlen. lia.
      * pose proof (entry_count_installed m i l0 (default [] l0)
          (hash_size m + 1) Hl) as Hlen. lia.
  - unfold bind, ret in Hrun.
    destruct (hash_map_erase m k w) as [[r w1]|] eqn:Her; [|done].
    injection Hrun as <- <-.
    apply hash_map_erase_cases in Her as (i & l0 & Hi & Hl & Hcase).
    destruct (find_bucket_entry_ m l0 k) as [e|] eqn:Hfind;
      destruct Hcase as [-> _]; simpl; [|lia].
    destruct l0 as [l|]; [|done]. simpl in *.
    pose proof (entry_count_installed m i (Some l) (remove_first e l)
                  (size_decr (hash_size m)) Hl) as Hlen.
    apply find_in_chain_Some in Hfind as [Hin _].
    apply length_remove_first in Hin. simpl in Hlen.
    destruct Hwf as (_ & _ & Hsz).
    pose proof (size_decr_pos (hash_size m)) as Hdec. lia.
  - rewrite hash_map_clear_run in Hrun by done. injection Hrun as <- <-.
    unfold entry_count. rewrite all_entries_with_empty_buckets. simpl. lia.
Qed.

(** X19: in every state reached by [set], [erase] and [clear] calls,
    failed ones included, the counter is at least the number of stored
    entries (short of an overflow of the counter): [size] may overcount
    but never undercounts, and a map for which [is_empty] is true stores
    no entry. *)
Theorem counter_never_undercounts m ops w m' w' :
  hash_map_wf m →
  N.of_nat (entry_count m) ≤ hash_map_size m →
  hash_map_size m + N.of_nat (length ops) < SIZE_MODULUS →
  run_ops ops m w = Some (m', w') →
  N.of_nat (entry_count m') ≤ hash_map_size m' ∧
  (hash_map_is_empty m' = true → all_entries m' = []).
Proof.
  unfold hash_map_size, hash_map_is_empty. intros Hwf Hle Hroom Hrun.
  assert (N.of_nat (entry_count m') ≤ hash_size m') as Hle'.
  { revert m w Hwf Hle Hroom Hrun.
    induction ops as [|o rest IH]; intros m w Hwf Hle Hroom Hrun.
    - simpl in Hrun. unfold ret in Hrun. by injection Hrun as <- <-.
    - simpl in Hrun. unfold bind in Hrun. simpl in Hroom.
      destruct (run_op o m w) as [[m1 w1]|] eqn:Hop; [|done].
      destruct (run_op_counter_bound m o w m1 w1 Hwf Hle) as [Hle1 Hsz1];
        [lia | done |].
      eapply (IH m1 w1); try done; [by eapply run_op_wf | lia]. }
  split; [done|]. rewrite N.eqb_eq. intros Hz.
  apply nil_length_inv. unfold entry_count in Hle'. lia.
Qed.

Lemma counter_never_undercounts_witness :
  ∃ m' w',
    run_ops [OpSet 1 12; OpClear; OpSet 6 66; OpErase 6] sample_map
      {| alloc_plan := [false]; trace := [] |} = Some (m', w') ∧
    N.of_nat (entry_count m') ≤ hash_map_size m' ∧
    (hash_map_is_empty m' = true → all_entries m' = []).
Proof.
  eexists _, _. split; [reflexivity|].
  eapply (counter_never_undercounts sample_map
            [OpSet 1 12; OpClear; OpSet 6 66; OpErase 6]
            {| alloc_plan := [false]; trace := [] |}).
  - exact sample_map_wf.
  - simpl. vm_compute. discriminate.
  - reflexivity.
  - reflexivity.
Defined.
